(** * Descendant tip sets of a rooted tree: [bipCPP] of src/phangorn_bip.cpp

    The C++ function reads a two-column edge matrix and a tip count, fills
    one container of tip labels per node id and returns the containers
    sorted.  The embedding below follows the function statement by
    statement.  C++ [int] values are integers of [Z]; on every path of the
    function the arithmetic ([i + 1L], [parent[i] - 1L],
    [children[i] - 1L]) stays inside the range of the type, so no
    wrap-around has to be written out.  Indexing a [std::vector] with
    [operator[]] outside its bounds has no defined behaviour in C++: the
    embedding makes that an outcome of its own. *)

From Stdlib Require Import ZArith Lia.
From stdpp Require Import base option relations list list_numbers sorting gmap.

Local Open Scope Z_scope.
Set Warnings "-clear-no-such-hyp".

(** ** Outcomes of a run *)

(** What the C++ standard library throws when [std::vector<T> v(n)] is asked
    for more elements than [max_size()]; a negative [int] converted to
    [size_t] is such a request. *)
Inductive exception :=
  | length_error.

(** Executions the C++ language gives no meaning to.  An outcome
    [Undefined u] says where the run leaves the defined behaviour of the
    language and nothing more: a compiled run may from there return any
    table, throw or stop. *)
Inductive undefined :=
  | index_out_of_bounds (index : Z) (size : nat)
  | max_of_empty_vector.

Inductive outcome (A : Type) : Type :=
  | Returned (a : A)
  | Thrown (e : exception)
  | Undefined (u : undefined).
Arguments Returned {A} a.
Arguments Thrown {A} e.
Arguments Undefined {A} u.

Definition outcome_bind {A B} (f : A → outcome B) (x : outcome A) : outcome B :=
  match x with
  | Returned a => f a
  | Thrown e => Thrown e
  | Undefined u => Undefined u
  end.

#[global] Instance outcome_ret : MRet outcome := @Returned.
#[global] Instance outcome_mbind : MBind outcome := @outcome_bind.

(** A [for] loop over the elements of [l] whose body may fail. *)
Fixpoint for_each {A B} (body : A → B → outcome A) (a : A) (l : list B) : outcome A :=
  match l with
  | [] => Returned a
  | x :: l => a' ← body a x; for_each body a' l
  end.

(** ** Data *)

(** [IntegerMatrix orig]: one row (parent, child) per edge. *)
Abbreviation IntegerMatrix := (list (Z * Z)).
Abbreviation IntegerVector := (list Z).

(** [std::vector< std::vector<int> >]; the container of node id [x] sits at
    index [x - 1]. *)
Abbreviation table := (list (list Z)).

(** [orig( _, k)]: a fresh vector holding column [k]. *)
Definition column (k : nat) (orig : IntegerMatrix) : IntegerVector :=
  match k with
  | O => orig.*1
  | _ => orig.*2
  end.

(** R's missing integer, the smallest [int]. *)
Definition NA_INTEGER : Z := - 2 ^ 31.

(** Rcpp's sugar [max] on an integer vector: the first element that is
    [NA_INTEGER] is returned as soon as it is met, otherwise the largest
    element.  On an empty vector the value is [-Inf] cast to [int], which
    C++ leaves undefined. *)
Fixpoint max_loop (mx : Z) (v : IntegerVector) : Z :=
  match v with
  | [] => mx
  | current :: v =>
      if current =? NA_INTEGER then current
      else max_loop (if mx <? current then current else mx) v
  end.

Definition Rcpp_max (v : IntegerVector) : outcome Z :=
  match v with
  | [] => Undefined max_of_empty_vector
  | first :: v => if first =? NA_INTEGER then Returned first else Returned (max_loop first v)
  end.

(** [std::vector< std::vector<int> > out(m)]. *)
Definition allocate (m : Z) : outcome table :=
  if m <? 0 then Thrown length_error else Returned (replicate (Z.to_nat m) []).

(** [out[i]], read. *)
Definition at_index (out : table) (i : Z) : outcome (list Z) :=
  match (if 0 <=? i then out !! Z.to_nat i else None) with
  | Some l => Returned l
  | None => Undefined (index_out_of_bounds i (length out))
  end.

(** [std::sort] on a vector of [int]: the ascending arrangement of its
    elements, which is unique. *)
Definition std_sort (l : list Z) : list Z := merge_sort Z.le l.

(** ** The three loops *)

(** [out[i].push_back(i + 1L)], the body of the first loop. *)
Definition seed_step (out : table) (i : Z) : outcome table :=
  oi ← at_index out i;
  Returned (<[Z.to_nat i := oi ++ [i + 1]]> out).

(** [for(int i = 0; i<nTips; i++)] over that body. *)
Definition seed_tips (out : table) (nTips : Z) : outcome table :=
  for_each seed_step out (seqZ 0 nTips).

(** The body of the loop over the edges, for the row
    [e = (parent[i], children[i])]:
    [j = parent[i] - 1L;]
    [if(children[i] > nTips){ y = out[children[i] - 1L];
       out[j].insert( out[j].end(), y.begin(), y.end() ); }]
    [else out[j].push_back(children[i]);]
    The assignment to [y] copies the child's vector, so [y] is a list of
    its own here. *)
Definition edge_step (nTips : Z) (out : table) (e : Z * Z) : outcome table :=
  let j := e.1 - 1 in
  if nTips <? e.2 then
    y ← at_index out (e.2 - 1);
    oj ← at_index out j;
    Returned (<[Z.to_nat j := oj ++ y]> out)
  else
    oj ← at_index out j;
    Returned (<[Z.to_nat j := oj ++ [e.2]]> out).

(** [sort(out[i].begin(), out[i].end())], the body of the last loop. *)
Definition sort_step (out : table) (i : Z) : outcome table :=
  oi ← at_index out i;
  Returned (<[Z.to_nat i := std_sort oi]> out).

(** ** The function

    The caller's matrix is shared with the callee (an Rcpp matrix is a
    handle on the R object), so a run is a transformer of the matrix's
    contents that also yields the result. *)
Definition run (A : Type) : Type := IntegerMatrix → outcome (A * IntegerMatrix).

Definition run_ret {A} (a : A) : run A := λ orig, Returned (a, orig).
Definition run_bind {A B} (f : A → run B) (x : run A) : run B :=
  λ orig, r ← x orig; f r.1 r.2.
Definition read_column (k : nat) : run IntegerVector :=
  λ orig, Returned (column k orig, orig).
Definition local {A} (x : outcome A) : run A :=
  λ orig, a ← x; Returned (a, orig).

#[global] Instance run_mret : MRet run := @run_ret.
#[global] Instance run_mbind : MBind run := @run_bind.

(** [List bipCPP(IntegerMatrix orig, int nTips)]; [wrap(out)] turns the
    table into an R list with the same elements in the same order. *)
Definition bipCPP (nTips : Z) : run table :=
  parent ← read_column 0;
  children ← read_column 1;
  m ← local (Rcpp_max parent);
  out ← local (allocate m);
  out ← local (seed_tips out nTips);
  out ← local (for_each (edge_step nTips) out (zip parent children));
  out ← local (for_each sort_step out (seqZ 0 m));
  mret out.

(** ** Vocabulary of the specification *)

(** The container of node id [x] in a table (ids start at 1). *)
Definition container (t : table) (x : Z) : list Z :=
  if 1 <=? x then default [] (t !! Z.to_nat (x - 1)) else [].

(** The largest id that occurs as a parent. *)
Definition maxNodeId (orig : IntegerMatrix) : Z := foldr Z.max 0 orig.*1.

(** The children of node [i], in the order of the rows. *)
Definition children_of (i : Z) (orig : IntegerMatrix) : list Z :=
  (filter (λ e, e.1 = i) orig).*2.

(** [reaches orig i x]: a path of edges leads from node [i] down to node [x]. *)
Definition reaches (orig : IntegerMatrix) : Z → Z → Prop :=
  rtc (λ a b, (a, b) ∈ orig).

(** The node ids that are nobody's child. *)
Definition roots (orig : IntegerMatrix) : list Z :=
  filter (λ x, x ∉ orig.*2) (seqZ 1 (maxNodeId orig)).

(** Rows in bottom-up order: a node that occurs as a child is not the parent
    of that row or of any later row. *)
Fixpoint bottom_up (orig : IntegerMatrix) : Prop :=
  match orig with
  | [] => True
  | e :: rest => Forall (λ e', e'.1 ≠ e.2) (e :: rest) ∧ bottom_up rest
  end.

(** A rooted tree on the node ids 1..maxNodeId with the tips 1..nTips. *)
Record valid_tree (orig : IntegerMatrix) (nTips : Z) : Prop := {
  vt_nonempty : orig ≠ [];
  vt_tips : 1 ≤ nTips;
  vt_parents : Forall (λ e, nTips < e.1) orig;
  vt_children : Forall (λ e, 1 ≤ e.2 ≤ maxNodeId orig) orig;
  vt_internal : Forall (λ x, x ∈ orig.*1) (seqZ (nTips + 1) (maxNodeId orig - nTips));
  vt_one_parent : NoDup orig.*2;
  vt_bottom_up : bottom_up orig;
  vt_root : length (roots orig) = 1%nat
}.

(** The rows the loop over the edges can process on a table of [m]
    containers without leaving it. *)
Definition row_in_bounds (nTips m : Z) (e : Z * Z) : Prop :=
  1 ≤ e.1 ≤ m ∧ (nTips < e.2 → 1 ≤ e.2 ≤ m).

(** What the row with child [c] appends to its parent's container. *)
Definition contribution (nTips : Z) (out : table) (c : Z) : list Z :=
  if nTips <? c then container out c else [c].

(** The table after the seeding loop, on [m] containers. *)
Definition seeded (m nTips : Z) : table :=
  ((λ i, [i]) <$> seqZ 1 nTips) ++ replicate (Z.to_nat (m - nTips)) [].

(** The labels held by the containers of the nodes outside [consumed]. *)
Definition live (m : Z) (t : table) (consumed : gset Z) : list Z :=
  concat (container t <$> filter (λ x, x ∉ consumed) (seqZ 1 m)).

(** The invariant of the loop over the edges on a tree: the containers of
    the nodes not yet used as a child share out the tip labels, and no
    container holds a label twice. *)
Definition shares_tips (m nTips : Z) (t : table) (consumed : gset Z) : Prop :=
  length t = Z.to_nat m
  ∧ live m t consumed ≡ₚ seqZ 1 nTips
  ∧ ∀ x, NoDup (container t x).

(** ** Checking that a concrete matrix is a valid tree *)

#[global] Instance bottom_up_dec orig : Decision (bottom_up orig).
Proof. induction orig as [|e rest IH]; simpl; apply _. Defined.

Ltac by_evaluation := refine (bool_decide_unpack _ _); vm_compute; exact I.

Ltac valid_tree_by_evaluation :=
  split; [discriminate | lia | by_evaluation ..].

(** * Properties *)

(** ** The outcome monad and the loops *)

Lemma bind_Returned {A B} (f : A → outcome B) (x : outcome A) b :
  x ≫= f = Returned b ↔ ∃ a, x = Returned a ∧ f a = Returned b.
Proof.
  destruct x as [a| |]; simpl; split.
  - eauto.
  - by intros (a' & [= <-] & ?).
  - done.
  - by intros (? & ? & ?).
  - done.
  - by intros (? & ? & ?).
Qed.

Lemma for_each_app {A B} (body : A → B → outcome A) a l1 l2 :
  for_each body a (l1 ++ l2) = a' ← for_each body a l1; for_each body a' l2.
Proof.
  revert a. induction l1 as [|x l1 IH]; intros a; simpl; [done|].
  destruct (body a x) as [a1| |]; simpl; [apply IH|done|done].
Qed.

(** A loop whose body keeps the size of the table either returns a table
    of that size or stops at an index outside the table. *)
Lemma for_each_outcome {B} (body : table → B → outcome table) :
  (∀ out x,
     (∃ out', body out x = Returned out' ∧ length out' = length out)
     ∨ ∃ i, body out x = Undefined (index_out_of_bounds i (length out))) →
  ∀ l out,
    (∃ out', for_each body out l = Returned out' ∧ length out' = length out)
    ∨ ∃ i, for_each body out l = Undefined (index_out_of_bounds i (length out)).
Proof.
  intros Hbody l. induction l as [|x l IH]; intros out; simpl.
  - left. eauto.
  - destruct (Hbody out x) as [(out1 & -> & Hlen)|[i ->]]; simpl.
    + rewrite <- Hlen. apply IH.
    + eauto.
Qed.

Lemma at_index_inv out i l :
  at_index out i = Returned l → 0 ≤ i ∧ out !! Z.to_nat i = Some l.
Proof.
  unfold at_index. destruct (Z.leb_spec 0 i); [|done].
  destruct (out !! Z.to_nat i) eqn:E; naive_solver.
Qed.

Lemma at_index_in out i l :
  0 ≤ i → out !! Z.to_nat i = Some l → at_index out i = Returned l.
Proof.
  intros Hi E. unfold at_index.
  destruct (Z.leb_spec 0 i); [|lia]. by rewrite E.
Qed.

Lemma at_index_lt (out : table) i :
  0 ≤ i < Z.of_nat (length out) → ∃ l, at_index out i = Returned l.
Proof.
  intros Hi. destruct (lookup_lt_is_Some_2 out (Z.to_nat i)) as [l E]; [lia|].
  exists l. apply at_index_in; [lia|done].
Qed.

Lemma at_index_out (out : table) i :
  ¬ (0 ≤ i < Z.of_nat (length out)) →
  at_index out i = Undefined (index_out_of_bounds i (length out)).
Proof.
  intros Hi. unfold at_index. destruct (Z.leb_spec 0 i); [|done].
  rewrite lookup_ge_None_2; [done|lia].
Qed.

Lemma at_index_cases (out : table) i :
  (∃ l, at_index out i = Returned l)
  ∨ at_index out i = Undefined (index_out_of_bounds i (length out)).
Proof.
  destruct (decide (0 ≤ i < Z.of_nat (length out))).
  - left. by apply at_index_lt.
  - right. by apply at_index_out.
Qed.

Lemma container_lookup (t : table) x l :
  1 ≤ x → t !! Z.to_nat (x - 1) = Some l → container t x = l.
Proof.
  intros Hx E. unfold container. destruct (Z.leb_spec 1 x); [|lia]. by rewrite E.
Qed.

Lemma lookup_container (t : table) x :
  1 ≤ x ≤ Z.of_nat (length t) → t !! Z.to_nat (x - 1) = Some (container t x).
Proof.
  intros Hx. destruct (lookup_lt_is_Some_2 t (Z.to_nat (x - 1))) as [l E]; [lia|].
  by rewrite (container_lookup t x l) by (done || lia).
Qed.

(** ** [max] of the parent column *)

Lemma max_loop_foldr mx v :
  Forall (λ x, NA_INTEGER < x) v → max_loop mx v = foldr Z.max mx v.
Proof.
  intros Hv. revert mx. induction Hv as [|x v Hx _ IH]; intros mx; simpl; [done|].
  destruct (Z.eqb_spec x NA_INTEGER); [lia|].
  rewrite IH. clear IH. destruct (Z.ltb_spec mx x).
  - induction v as [|z v IHv]; simpl; lia.
  - induction v as [|z v IHv]; simpl; lia.
Qed.

Lemma Rcpp_max_positive v :
  v ≠ [] → Forall (λ x, 1 ≤ x) v → Rcpp_max v = Returned (foldr Z.max 0 v).
Proof.
  intros Hne Hv. destruct v as [|x v]; [done|]. simpl.
  apply Forall_cons in Hv as [Hx Hv].
  destruct (Z.eqb_spec x NA_INTEGER); [unfold NA_INTEGER in *; lia|].
  rewrite max_loop_foldr.
  - f_equal. clear -Hx. induction v as [|z v IHv]; simpl; lia.
  - eapply Forall_impl; [done|]. unfold NA_INTEGER. simpl. lia.
Qed.

Lemma foldr_max_ge v x : x ∈ v → x ≤ foldr Z.max 0 v.
Proof.
  induction 1 as [x v|x z v _ IH]; simpl; lia.
Qed.


(** ** The seeding loop *)

Lemma seed_prefix (m : Z) (k : nat) :
  Z.of_nat k ≤ m →
  for_each seed_step (replicate (Z.to_nat m) []) (seqZ 0 (Z.of_nat k))
  = Returned (seeded m (Z.of_nat k)).
Proof.
  unfold seeded. induction k as [|k IH]; intros Hk.
  - simpl. do 3 f_equal. lia.
  - rewrite seqZ_S, for_each_app, IH by lia. simpl.
    unfold seed_step.
    assert (Hlen : length ((λ i : Z, [i]) <$> seqZ 1 (Z.of_nat k)) = k)
      by (rewrite length_fmap, length_seqZ; lia).
    replace (Z.to_nat (m - Z.of_nat k)) with (S (Z.to_nat (m - Z.of_nat (S k)))) by lia.
    rewrite (at_index_in _ _ []); [simpl| lia |].
    + f_equal. replace (Z.to_nat (0 + Z.of_nat k)) with k by lia.
      rewrite insert_app_r_alt, Hlen, Nat.sub_diag by lia. simpl.
      rewrite seqZ_S, fmap_app. simpl. rewrite <- app_assoc. simpl.
      do 3 f_equal. lia.
    + replace (Z.to_nat (0 + Z.of_nat k)) with k by lia.
      rewrite lookup_app_r, Hlen, Nat.sub_diag by lia. done.
Qed.

Lemma seed_tips_in (m nTips : Z) :
  0 ≤ nTips ≤ m →
  seed_tips (replicate (Z.to_nat m) []) nTips = Returned (seeded m nTips).
Proof.
  intros H. unfold seed_tips. rewrite <- (Z2Nat.id nTips) by lia.
  apply seed_prefix. lia.
Qed.

Lemma length_seeded m nTips : 0 ≤ nTips ≤ m → length (seeded m nTips) = Z.to_nat m.
Proof.
  intros H. unfold seeded.
  rewrite length_app, length_fmap, length_seqZ, length_replicate. lia.
Qed.

Lemma seed_tips_out (m nTips : Z) :
  0 ≤ m < nTips →
  seed_tips (replicate (Z.to_nat m) []) nTips
  = Undefined (index_out_of_bounds m (Z.to_nat m)).
Proof.
  intros H. unfold seed_tips.
  replace nTips with (m + (nTips - m)) by lia.
  rewrite seqZ_app, for_each_app by lia.
  rewrite <- (Z2Nat.id m) at 2 by lia. rewrite seed_prefix by lia. simpl.
  rewrite seqZ_cons by lia. simpl. unfold seed_step.
  rewrite at_index_out; rewrite length_seeded; simpl; (done || lia).
Qed.

Lemma seed_tips_outcome (out : table) nTips :
  (∃ out', seed_tips out nTips = Returned out' ∧ length out' = length out)
  ∨ ∃ i, seed_tips out nTips = Undefined (index_out_of_bounds i (length out)).
Proof.
  apply for_each_outcome. clear. intros out i. unfold seed_step.
  destruct (at_index_cases out i) as [[oi ->]| ->]; simpl; [|eauto].
  left. eexists. split; [done|]. by rewrite length_insert.
Qed.

Lemma concat_seeded m nTips : concat (seeded m nTips) = seqZ 1 nTips.
Proof.
  unfold seeded. rewrite concat_app.
  assert (∀ n, concat (replicate n (@nil Z)) = []) as -> by (induction n; done).
  rewrite app_nil_r. induction (seqZ 1 nTips) as [|x l IH]; [done|].
  rewrite fmap_cons. simpl. by rewrite IH.
Qed.

Lemma container_seeded m nTips x :
  0 ≤ nTips ≤ m →
  container (seeded m nTips) x = if decide (1 ≤ x ≤ nTips) then [x] else [].
Proof.
  intros H. unfold container, seeded. destruct (Z.leb_spec 1 x).
  - case_decide.
    + rewrite lookup_app_l by (rewrite length_fmap, length_seqZ; lia).
      rewrite list_lookup_fmap, lookup_seqZ_lt by lia. simpl. do 2 f_equal. lia.
    + rewrite lookup_app_r by (rewrite length_fmap, length_seqZ; lia).
      destruct (replicate _ _ !! _) as [l|] eqn:E; [|done].
      by apply lookup_replicate in E as [-> _].
  - case_decide; [lia|done].
Qed.

(** Reading all containers of a table in the order of the node ids gives the
    table back. *)
Lemma containers_of_table (t : table) :
  container t <$> seqZ 1 (Z.of_nat (length t)) = t.
Proof.
  apply list_eq. intros i. rewrite list_lookup_fmap.
  destruct (decide (i < length t)%nat) as [Hi|Hi].
  - rewrite lookup_seqZ_lt by lia. simpl.
    destruct (lookup_lt_is_Some_2 t i Hi) as [l E]. rewrite E. f_equal.
    apply container_lookup; [lia|]. by replace (Z.to_nat (1 + Z.of_nat i - 1)) with i by lia.
  - rewrite lookup_seqZ_ge, lookup_ge_None_2 by lia. done.
Qed.

(** ** The sorting loop *)

Lemma sort_prefix (out : table) (k : nat) :
  (k ≤ length out)%nat →
  for_each sort_step out (seqZ 0 (Z.of_nat k))
  = Returned ((std_sort <$> take k out) ++ drop k out).
Proof.
  induction k as [|k IH]; intros Hk.
  - simpl. by rewrite drop_0.
  - rewrite seqZ_S, for_each_app, IH by lia. simpl. unfold sort_step.
    destruct (lookup_lt_is_Some_2 out k) as [l E]; [lia|].
    assert (Hlen : length (std_sort <$> take k out) = k)
      by (rewrite length_fmap, length_take; lia).
    rewrite (at_index_in _ _ l); [simpl | lia |];
      replace (Z.to_nat (0 + Z.of_nat k)) with k by lia.
    + f_equal. rewrite insert_app_r_alt, Hlen, Nat.sub_diag by lia.
      rewrite (drop_S _ _ _ E). simpl.
      rewrite (take_S_r _ _ _ E), fmap_app, <- app_assoc. done.
    + rewrite lookup_app_r, Hlen, Nat.sub_diag, lookup_drop by lia.
      by rewrite Nat.add_0_r.
Qed.

Lemma sort_loop (out : table) :
  for_each sort_step out (seqZ 0 (Z.of_nat (length out))) = Returned (std_sort <$> out).
Proof.
  rewrite sort_prefix by done. by rewrite firstn_all, drop_all, app_nil_r.
Qed.

(** ** One row of the edge matrix *)

Section edge_loop.
Context (nTips : Z).

Lemma container_insert (out : table) p l x :
  1 ≤ p ≤ Z.of_nat (length out) →
  container (<[Z.to_nat (p - 1) := l]> out) x
  = if decide (x = p) then l else container out x.
Proof.
  intros Hp. unfold container. destruct (Z.leb_spec 1 x).
  - case_decide as Hx.
    + subst x. rewrite list_lookup_insert_eq by lia. done.
    + rewrite list_lookup_insert_ne by lia. done.
  - case_decide; [lia|done].
Qed.

Lemma edge_step_in (out : table) e :
  row_in_bounds nTips (Z.of_nat (length out)) e →
  edge_step nTips out e
  = Returned (<[Z.to_nat (e.1 - 1) := container out e.1 ++ contribution nTips out e.2]> out).
Proof.
  intros [Hp Hc]. unfold edge_step, contribution.
  destruct (Z.ltb_spec nTips e.2).
  - rewrite (at_index_in out (e.2 - 1) (container out e.2));
      [simpl | lia | apply lookup_container; lia].
    rewrite (at_index_in out (e.1 - 1) (container out e.1));
      [done | lia | apply lookup_container; lia].
  - rewrite (at_index_in out (e.1 - 1) (container out e.1));
      [done | lia | apply lookup_container; lia].
Qed.

Lemma edge_step_inv (out out' : table) e :
  edge_step nTips out e = Returned out' →
  row_in_bounds nTips (Z.of_nat (length out)) e.
Proof.
  unfold edge_step, row_in_bounds. destruct (Z.ltb_spec nTips e.2) as [Hlt|Hge]; intros H.
  - apply bind_Returned in H as (y & Hy & H).
    apply bind_Returned in H as (oj & Hj & _).
    apply at_index_inv in Hy as [? Hy]. apply at_index_inv in Hj as [? Hj].
    apply lookup_lt_Some in Hy, Hj. lia.
  - apply bind_Returned in H as (oj & Hj & _).
    apply at_index_inv in Hj as [? Hj]. apply lookup_lt_Some in Hj. lia.
Qed.


(** ** The loop over the edges *)


Lemma edge_loop_inv es (out out' : table) :
  for_each (edge_step nTips) out es = Returned out' →
  Forall (row_in_bounds nTips (Z.of_nat (length out))) es ∧ length out' = length out.
Proof.
  revert out. induction es as [|e es IH]; intros out; simpl.
  - intros [= <-]. auto.
  - intros H. apply bind_Returned in H as (out1 & H1 & H).
    pose proof (edge_step_inv _ _ _ H1) as Hb.
    rewrite (edge_step_in _ _ Hb) in H1. injection H1 as <-.
    apply IH in H as [Hes Hlen]. rewrite length_insert in Hes, Hlen. auto.
Qed.

Lemma edge_loop_in es (out : table) :
  Forall (row_in_bounds nTips (Z.of_nat (length out))) es →
  ∃ out', for_each (edge_step nTips) out es = Returned out' ∧ length out' = length out.
Proof.
  revert out. induction es as [|e es IH]; intros out Hes; simpl; [eauto|].
  apply Forall_cons in Hes as [He Hes]. rewrite (edge_step_in _ _ He). simpl.
  edestruct IH as (out' & -> & Hlen); [by rewrite length_insert|].
  exists out'. split; [done|]. by rewrite Hlen, length_insert.
Qed.

(** Only the containers of the parents of the processed rows change. *)
Lemma edge_loop_frame es (out out' : table) x :
  for_each (edge_step nTips) out es = Returned out' →
  x ∉ es.*1 →
  container out' x = container out x.
Proof.
  revert out. induction es as [|e es IH]; intros out; simpl.
  - by intros [= <-].
  - intros H Hx. apply bind_Returned in H as (out1 & H1 & H).
    pose proof (edge_step_inv _ _ _ H1) as Hb.
    rewrite (edge_step_in _ _ Hb) in H1. injection H1 as <-.
    apply not_elem_of_cons in Hx as [Hne Hx].
    rewrite (IH _ H Hx), container_insert by apply Hb.
    by rewrite decide_False.
Qed.

End edge_loop.

(** ** The function as a whole *)

Lemma bipCPP_local nTips orig :
  bipCPP nTips orig
  = local (m ← Rcpp_max orig.*1;
           out ← allocate m;
           out ← seed_tips out nTips;
           out ← for_each (edge_step nTips) out orig;
           for_each sort_step out (seqZ 0 m)) orig.
Proof.
  unfold bipCPP, local, read_column, mbind, run_mbind, run_bind, column. simpl.
  rewrite zip_fst_snd.
  destruct (Rcpp_max orig.*1) as [m| |]; simpl; [|done|done].
  destruct (allocate m) as [out0| |]; simpl; [|done|done].
  destruct (seed_tips out0 nTips) as [out1| |]; simpl; [|done|done].
  destruct (for_each (edge_step nTips) out1 orig) as [out2| |]; simpl; [|done|done].
  destruct (for_each sort_step out2 (seqZ 0 m)) as [out3| |]; simpl; done.
Qed.

(** On an input whose rows stay inside the table the function returns the
    table of the loop over the edges, each container sorted. *)
Lemma bipCPP_in_bounds nTips orig m :
  Rcpp_max orig.*1 = Returned m →
  0 ≤ nTips ≤ m →
  Forall (row_in_bounds nTips m) orig →
  ∃ out, for_each (edge_step nTips) (seeded m nTips) orig = Returned out
         ∧ length out = Z.to_nat m
         ∧ bipCPP nTips orig = Returned (std_sort <$> out, orig).
Proof.
  intros Hmax Hn Hrows.
  destruct (edge_loop_in nTips orig (seeded m nTips)) as (out & Hout & Hlen).
  { rewrite length_seeded by done. by rewrite Z2Nat.id by lia. }
  rewrite length_seeded in Hlen by done.
  exists out. split; [done|]. split; [done|].
  rewrite bipCPP_local, Hmax. unfold local, allocate. simpl.
  destruct (Z.ltb_spec m 0); [lia|]. simpl.
  rewrite seed_tips_in by done. simpl. rewrite Hout. simpl.
  replace m with (Z.of_nat (length out)) at 1 by lia.
  by rewrite sort_loop.
Qed.

(** Whenever the function returns, the rows stayed inside a table of [m]
    containers, the result is the table of the loop over the edges, each
    container sorted, and the matrix is as it was. *)
Lemma bipCPP_Returned nTips orig r :
  bipCPP nTips orig = Returned r →
  ∃ m (out : table),
    Rcpp_max orig.*1 = Returned m
    ∧ 0 ≤ m
    ∧ Forall (row_in_bounds nTips m) orig
    ∧ length out = Z.to_nat m
    ∧ r = (std_sort <$> out, orig).
Proof.
  rewrite bipCPP_local. unfold local. intros H.
  apply bind_Returned in H as (t & H & [= <-]).
  apply bind_Returned in H as (m & Hmax & H).
  apply bind_Returned in H as (out0 & Halloc & H).
  apply bind_Returned in H as (out1 & Hseed & H).
  apply bind_Returned in H as (out2 & Hloop & Hsort).
  unfold allocate in Halloc. destruct (Z.ltb_spec m 0); [done|].
  injection Halloc as <-.
  destruct (seed_tips_outcome (replicate (Z.to_nat m) []) nTips)
    as [(out1' & Hs & Hlen1)|[i Hs]]; rewrite Hs in Hseed; [|done].
  injection Hseed as ->. rewrite length_replicate in Hlen1.
  apply edge_loop_inv in Hloop as Hrows. destruct Hrows as [Hrows Hlen2].
  exists m, out2. split; [done|]. split; [done|]. split; [|split; [lia|]].
  - by rewrite Hlen1, Z2Nat.id in Hrows by lia.
  - replace m with (Z.of_nat (length out2)) in Hsort by lia.
    rewrite sort_loop in Hsort. by injection Hsort as <-.
Qed.

Lemma valid_tree_parent orig nTips e :
  valid_tree orig nTips → e ∈ orig → nTips < e.1 ≤ maxNodeId orig.
Proof.
  intros Hv He. split.
  - by apply (proj1 (Forall_forall _ _) (vt_parents _ _ Hv)).
  - apply foldr_max_ge, list_elem_of_fmap. eauto.
Qed.

Lemma valid_tree_max orig nTips :
  valid_tree orig nTips → Rcpp_max orig.*1 = Returned (maxNodeId orig).
Proof.
  intros Hv. apply Rcpp_max_positive.
  - intros E. apply fmap_nil_inv in E. by apply (vt_nonempty _ _ Hv).
  - apply Forall_fmap, Forall_forall. intros e He. simpl.
    pose proof (valid_tree_parent _ _ _ Hv He). pose proof (vt_tips _ _ Hv). lia.
Qed.

Lemma valid_tree_ntips orig nTips :
  valid_tree orig nTips → 1 ≤ nTips ≤ maxNodeId orig.
Proof.
  intros Hv. split; [apply Hv|].
  assert (∃ e, e ∈ orig) as [e He].
  { destruct orig as [|e rest]; [by destruct (vt_nonempty _ _ Hv)|]. exists e. left. }
  pose proof (valid_tree_parent _ _ _ Hv He). lia.
Qed.

Lemma valid_tree_rows orig nTips :
  valid_tree orig nTips → Forall (row_in_bounds nTips (maxNodeId orig)) orig.
Proof.
  intros Hv. apply Forall_forall. intros e He. split.
  - pose proof (valid_tree_parent _ _ _ Hv He). pose proof (vt_tips _ _ Hv). lia.
  - intros _. by apply (proj1 (Forall_forall _ _) (vt_children _ _ Hv)).
Qed.

Lemma valid_tree_runs orig nTips :
  valid_tree orig nTips →
  ∃ out, for_each (edge_step nTips) (seeded (maxNodeId orig) nTips) orig = Returned out
         ∧ length out = Z.to_nat (maxNodeId orig)
         ∧ bipCPP nTips orig = Returned (std_sort <$> out, orig).
Proof.
  intros Hv. apply bipCPP_in_bounds.
  - by apply (valid_tree_max _ nTips).
  - pose proof (valid_tree_ntips _ _ Hv). lia.
  - by apply valid_tree_rows.
Qed.

(** ** What a bottom-up pass computes *)

Lemma contribution_tip nTips (out : table) c :
  (c ≤ nTips → container out c = [c]) → contribution nTips out c = container out c.
Proof.
  intros H. unfold contribution. destruct (Z.ltb_spec nTips c); [done|].
  symmetry. apply H. lia.
Qed.

Lemma children_of_cons i e es :
  children_of i (e :: es)
  = if decide (e.1 = i) then e.2 :: children_of i es else children_of i es.
Proof.
  unfold children_of. rewrite filter_cons. by case_decide.
Qed.

Lemma elem_of_children_of i c es : c ∈ children_of i es ↔ (i, c) ∈ es.
Proof.
  unfold children_of. rewrite list_elem_of_fmap. split.
  - intros ([p c'] & -> & He). apply list_elem_of_filter in He as [Hp He].
    simpl in *. by subst.
  - intros He. exists (i, c). split; [done|]. by apply list_elem_of_filter.
Qed.

(** After a bottom-up pass every container is what it was before the pass
    followed by the final containers of the node's children. *)
Lemma edge_loop_children nTips es (out out' : table) :
  for_each (edge_step nTips) out es = Returned out' →
  bottom_up es →
  Forall (λ e, nTips < e.1) es →
  Forall (λ e, e.2 ≤ nTips → container out e.2 = [e.2]) es →
  ∀ i, container out' i
       = container out i ++ concat (container out' <$> children_of i es).
Proof.
  revert out. induction es as [|e es IH]; intros out; simpl.
  - intros [= <-] _ _ _ i. by rewrite app_nil_r.
  - intros H [Hhd Hbu] Hpar Htip i.
    apply bind_Returned in H as (out1 & H1 & H).
    pose proof (edge_step_inv _ _ _ _ H1) as Hb.
    rewrite (edge_step_in _ _ _ Hb) in H1. injection H1 as <-.
    apply Forall_cons in Hhd as [Hne Hlater].
    apply Forall_cons in Hpar as [Hp Hpar].
    apply Forall_cons in Htip as [Hc Htip].
    assert (Hchild : container out' e.2 = contribution nTips out e.2).
    { rewrite (edge_loop_frame _ _ _ _ _ H).
      - rewrite container_insert by apply Hb. rewrite decide_False by done.
        symmetry. by apply contribution_tip.
      - intros Hin. apply list_elem_of_fmap in Hin as (e' & He' & Hin).
        by apply (proj1 (Forall_forall _ _) Hlater e' Hin). }
    rewrite (IH _ H Hbu Hpar).
    + rewrite container_insert by apply Hb. rewrite children_of_cons.
      destruct (decide (i = e.1)) as [->|Hi].
      * rewrite decide_True by done. rewrite fmap_cons. simpl.
        by rewrite Hchild, <- !app_assoc.
      * rewrite decide_False by done. done.
    + apply Forall_forall. intros e' He' Hle.
      pose proof (proj1 (Forall_forall _ _) Hpar e' He') as Hp'.
      pose proof (proj1 (Forall_forall _ _) Htip e' He' Hle) as Ht. simpl in *.
      rewrite container_insert by apply Hb. rewrite decide_False by lia. done.
Qed.

(** ** Containers that share out the tips *)

Lemma filter_all {A} (P : A → Prop) `{!∀ x, Decision (P x)} (l : list A) :
  (∀ x, x ∈ l → P x) → filter P l = l.
Proof.
  induction l as [|x l IH]; intros Hall; [done|].
  rewrite filter_cons_True by (apply Hall; left).
  rewrite IH; [done|]. intros y Hy. apply Hall. by right.
Qed.

Lemma concat_fmap_extract (f : Z → list Z) (L : list Z) x :
  NoDup L → x ∈ L →
  concat (f <$> L) ≡ₚ f x ++ concat (f <$> filter (λ y, y ≠ x) L).
Proof.
  induction 1 as [|y L Hy HL IH]; intros Hx; [by apply elem_of_nil in Hx|].
  rewrite fmap_cons. simpl. destruct (decide (y = x)) as [->|Hne].
  - rewrite filter_cons_False by (by intros Hxx).
    rewrite filter_all; [done|]. intros z Hz ->. done.
  - rewrite filter_cons_True by done. rewrite fmap_cons. simpl.
    apply elem_of_cons in Hx as [->|Hx]; [done|].
    rewrite (IH Hx), !app_assoc. f_equiv. apply Permutation_app_comm.
Qed.

Lemma concat_fmap_update (f g : Z → list Z) (L : list Z) p extra :
  NoDup L → p ∈ L →
  g p = f p ++ extra →
  (∀ y, y ≠ p → g y = f y) →
  concat (g <$> L) ≡ₚ concat (f <$> L) ++ extra.
Proof.
  intros HL Hp Hg Hother. induction HL as [|y L Hy HL IH]; [by apply elem_of_nil in Hp|].
  rewrite !fmap_cons. simpl. destruct (decide (y = p)) as [->|Hne].
  - rewrite Hg. rewrite (list_fmap_ext g f L).
    + rewrite <- !app_assoc. f_equiv. apply Permutation_app_comm.
    + intros i z Hz. apply Hother. intros ->.
      apply Hy. by apply list_elem_of_lookup_2 in Hz.
  - apply elem_of_cons in Hp as [->|Hp]; [done|].
    rewrite (Hother y Hne), (IH Hp). by rewrite app_assoc.
Qed.

Lemma live_extract m (t : table) (cs : gset Z) x :
  1 ≤ x ≤ m → x ∉ cs →
  live m t cs ≡ₚ container t x ++ live m t ({[x]} ∪ cs).
Proof.
  intros Hx Hcs. unfold live.
  rewrite (concat_fmap_extract _ _ x).
  - rewrite list_filter_filter.
    rewrite (list_filter_iff (λ a, a ≠ x ∧ a ∉ cs) (λ a, a ∉ {[x]} ∪ cs)); [done|].
    intros y. set_solver.
  - apply NoDup_filter, NoDup_seqZ.
  - apply list_elem_of_filter. split; [done|]. apply elem_of_seqZ. lia.
Qed.

Lemma live_update m (t : table) (cs : gset Z) p extra :
  1 ≤ p ≤ m → m = Z.of_nat (length t) → p ∉ cs →
  live m (<[Z.to_nat (p - 1) := container t p ++ extra]> t) cs
  ≡ₚ live m t cs ++ extra.
Proof.
  intros Hp Hm Hcs. unfold live. apply concat_fmap_update with (p := p).
  - apply NoDup_filter, NoDup_seqZ.
  - apply list_elem_of_filter. split; [done|]. apply elem_of_seqZ. lia.
  - rewrite container_insert by lia. by rewrite decide_True.
  - intros y Hy. rewrite container_insert by lia. by rewrite decide_False.
Qed.

(** One row keeps the invariant and moves its child to the consumed nodes. *)
Lemma shares_tips_step m nTips (t : table) (cs : gset Z) e :
  shares_tips m nTips t cs →
  1 ≤ e.1 ≤ m → 1 ≤ e.2 ≤ m → e.1 ≠ e.2 → e.1 ∉ cs → e.2 ∉ cs →
  (e.2 ≤ nTips → container t e.2 = [e.2]) →
  shares_tips m nTips
    (<[Z.to_nat (e.1 - 1) := container t e.1 ++ contribution nTips t e.2]> t)
    ({[e.2]} ∪ cs).
Proof.
  intros (Hlen & Hlive & Hnd) Hp Hc Hne Hpcs Hccs Htip.
  rewrite (contribution_tip _ _ _ Htip).
  assert (Hsplit : live m t cs
                   ≡ₚ container t e.2 ++ container t e.1 ++ live m t ({[e.1]} ∪ ({[e.2]} ∪ cs))).
  { rewrite (live_extract m t cs e.2) by done.
    rewrite (live_extract m t ({[e.2]} ∪ cs) e.1) by (done || set_solver). done. }
  split; [by rewrite length_insert|]. split.
  - rewrite live_update by (lia || set_solver).
    rewrite <- Hlive, (live_extract m t cs e.2) by done.
    apply Permutation_app_comm.
  - intros x. rewrite container_insert by lia. case_decide; [|done].
    assert (NoDup (live m t cs)) as Hseq by (rewrite Hlive; apply NoDup_seqZ).
    rewrite Hsplit, app_assoc in Hseq. apply NoDup_app in Hseq as [Hseq _].
    by rewrite (Permutation_app_comm (container t e.1)).
Qed.

Lemma shares_tips_seeded m nTips :
  0 ≤ nTips ≤ m → shares_tips m nTips (seeded m nTips) ∅.
Proof.
  intros H. split; [by apply length_seeded|]. split.
  - unfold live. rewrite filter_all by set_solver.
    assert (seqZ 1 m = seqZ 1 (Z.of_nat (length (seeded m nTips)))) as ->
      by (rewrite length_seeded by done; f_equal; lia).
    by rewrite containers_of_table, concat_seeded.
  - intros x. rewrite container_seeded by done.
    case_decide; [apply NoDup_singleton|apply NoDup_nil_2].
Qed.

Lemma edge_loop_shares m nTips es (out out' : table) (cs : gset Z) :
  shares_tips m nTips out cs →
  for_each (edge_step nTips) out es = Returned out' →
  bottom_up es →
  NoDup es.*2 →
  Forall (λ e, nTips < e.1) es →
  Forall (λ e, 1 ≤ e.2 ≤ m) es →
  Forall (λ e, e.2 ≤ nTips → container out e.2 = [e.2]) es →
  (∀ x, x ∈ cs → (x ∉ es.*1) ∧ (x ∉ es.*2)) →
  shares_tips m nTips out' (list_to_set es.*2 ∪ cs).
Proof.
  revert out cs. induction es as [|e es IH]; intros out cs Hinv; simpl.
  - intros [= <-] _ _ _ _ _ _. by replace (∅ ∪ cs) with cs by set_solver.
  - intros H [Hhd Hbu] Hnd Hpar Hch Htip Hcs.
    apply bind_Returned in H as (out1 & H1 & H).
    pose proof (edge_step_inv _ _ _ _ H1) as Hb.
    rewrite (edge_step_in _ _ _ Hb) in H1. injection H1 as <-.
    apply Forall_cons in Hhd as [Hne Hlater].
    apply Forall_cons in Hpar as [Hp Hpar].
    apply Forall_cons in Hch as [Hc Hch].
    apply Forall_cons in Htip as [Ht Htip].
    apply NoDup_cons in Hnd as [Hfresh Hnd].
    assert (Hm : Z.of_nat (length out) = m ∨ (m < 0 ∧ length out = 0%nat))
      by (destruct Hinv as [Hlen _]; lia).
    assert (Heq : ({[e.2]} ∪ list_to_set es.*2 ∪ cs : gset Z)
                  = list_to_set es.*2 ∪ ({[e.2]} ∪ cs)) by set_solver.
    change (shares_tips m nTips out' ({[e.2]} ∪ list_to_set es.*2 ∪ cs)).
    rewrite Heq. clear Heq.
    assert (Hstep : shares_tips m nTips
              (<[Z.to_nat (e.1 - 1) := container out e.1 ++ contribution nTips out e.2]> out)
              ({[e.2]} ∪ cs)).
    { apply shares_tips_step; try done.
      - destruct Hb. lia.
      - intros Hin. apply Hcs in Hin as [Hin _]. apply Hin. left.
      - intros Hin. apply Hcs in Hin as [_ Hin]. apply Hin. left. }
    apply (IH _ _ Hstep H Hbu Hnd Hpar Hch).
    + apply Forall_forall. intros e' He' Hle.
      pose proof (proj1 (Forall_forall _ _) Hpar e' He') as Hp'.
      pose proof (proj1 (Forall_forall _ _) Htip e' He' Hle) as Ht'. simpl in *.
      rewrite container_insert by apply Hb. rewrite decide_False by lia. done.
    + intros x Hx. apply elem_of_union in Hx as [Hx|Hx].
      * apply elem_of_singleton in Hx as ->. split; [|done].
        intros Hin. apply list_elem_of_fmap in Hin as (e' & He' & Hin).
        by apply (proj1 (Forall_forall _ _) Hlater e' Hin).
      * apply Hcs in Hx as [Hx1 Hx2].
        apply not_elem_of_cons in Hx1 as [_ Hx1].
        apply not_elem_of_cons in Hx2 as [_ Hx2]. done.
Qed.

(** ** Sorting *)

Lemma std_sort_perm l : std_sort l ≡ₚ l.
Proof. apply merge_sort_Permutation. Qed.

Lemma std_sort_sorted l : Sorted Z.le (std_sort l).
Proof. apply (Sorted_merge_sort Z.le). Qed.

Lemma std_sort_unique l l' : Sorted Z.le l' → l' ≡ₚ l → std_sort l = l'.
Proof.
  intros Hs Hp. apply (Sorted_unique Z.le); [apply std_sort_sorted|done|].
  by rewrite std_sort_perm.
Qed.

Lemma std_sort_elem x l : x ∈ std_sort l ↔ x ∈ l.
Proof. by rewrite std_sort_perm. Qed.

Lemma std_sort_strict l : NoDup l → StronglySorted Z.lt (std_sort l).
Proof.
  intros Hnd. rewrite <- std_sort_perm in Hnd.
  pose proof (Sorted_StronglySorted Z.le _ (std_sort_sorted l)) as Hs.
  induction Hs as [|x k Hk IH Hx]; [constructor|].
  apply NoDup_cons in Hnd as [Hfresh Hnd]. constructor; [by apply IH|].
  apply Forall_forall. intros y Hy.
  pose proof (proj1 (Forall_forall _ _) Hx y Hy).
  assert (x ≠ y) by (by intros ->). lia.
Qed.

Lemma sorted_seqZ a n : Sorted Z.le (seqZ a n).
Proof.
  destruct (decide (n ≤ 0)) as [Hn|Hn]; [rewrite seqZ_nil by done; constructor|].
  rewrite <- (Z2Nat.id n) by lia. generalize (Z.to_nat n) as k. clear. intros k.
  revert a. induction k as [|k IH]; intros a; [constructor|].
  rewrite seqZ_cons by lia. replace (Z.pred (Z.of_nat (S k))) with (Z.of_nat k) by lia.
  constructor; [apply IH|].
  destruct k as [|k]; [constructor|]. rewrite seqZ_cons by lia. constructor. lia.
Qed.

Lemma container_sorted (out : table) x :
  container (std_sort <$> out) x = std_sort (container out x).
Proof.
  unfold container. destruct (1 <=? x); [|done].
  rewrite list_lookup_fmap. by destruct (out !! Z.to_nat (x - 1)).
Qed.

(** ** Labels and paths *)

Lemma elem_of_concat_fmap (f : Z → list Z) (L : list Z) x :
  x ∈ concat (f <$> L) ↔ ∃ c, c ∈ L ∧ x ∈ f c.
Proof.
  induction L as [|c L IH]; simpl.
  - split; [by intros ?%elem_of_nil|by intros (? & ?%elem_of_nil & _)].
  - rewrite elem_of_app, IH. split.
    + intros [?|(c' & ? & ?)]; [exists c; split; [left|done]|exists c'; split; [by right|done]].
    + intros (c' & [->|?]%elem_of_cons & ?); [by left|right; eauto].
Qed.

Lemma concat_fmap_perm (f g : Z → list Z) (L : list Z) :
  (∀ c, g c ≡ₚ f c) → concat (g <$> L) ≡ₚ concat (f <$> L).
Proof.
  intros H. induction L as [|c L IH]; simpl; [done|]. by rewrite H, IH.
Qed.

(** Every label the loop puts into a container is a tip below that node. *)
Lemma edge_loop_reach orig nTips es (out out' : table) :
  (∀ e, e ∈ es → e ∈ orig) →
  Forall (λ e, 1 ≤ e.2) es →
  (∀ i x, x ∈ container out i → 1 ≤ x ≤ nTips ∧ reaches orig i x) →
  for_each (edge_step nTips) out es = Returned out' →
  ∀ i x, x ∈ container out' i → 1 ≤ x ≤ nTips ∧ reaches orig i x.
Proof.
  revert out. induction es as [|e es IH]; intros out Hsub Hpos Hinv; simpl.
  - by intros [= <-].
  - intros H. apply bind_Returned in H as (out1 & H1 & H).
    pose proof (edge_step_inv _ _ _ _ H1) as Hb.
    rewrite (edge_step_in _ _ _ Hb) in H1. injection H1 as <-.
    apply Forall_cons in Hpos as [Hc Hpos].
    assert (Hsub' : ∀ e', e' ∈ es → e' ∈ orig) by (intros e' He'; apply Hsub; by right).
    refine (IH _ Hsub' Hpos _ H).
    intros i x. rewrite container_insert by apply Hb.
    case_decide as Hi; [subst i|by apply Hinv].
    intros [Hx|Hx]%elem_of_app; [by apply Hinv|].
    assert (He : (e.1, e.2) ∈ orig) by (rewrite <- surjective_pairing; apply Hsub; left).
    unfold contribution in Hx. destruct (Z.ltb_spec nTips e.2).
    + apply Hinv in Hx as [Hx Hr]. split; [done|]. by eapply rtc_l.
    + apply list_elem_of_singleton in Hx as ->. split; [lia|]. by apply rtc_once.
Qed.

Lemma reaches_container orig (desc : Z → list Z) :
  (∀ i c x, (i, c) ∈ orig → x ∈ desc c → x ∈ desc i) →
  ∀ i x, reaches orig i x → x ∈ desc x → x ∈ desc i.
Proof.
  intros Hstep i x Hr. induction Hr as [|i c x Hic _ IH]; [done|].
  intros Hx. eapply Hstep; eauto.
Qed.

(** ** The table of a valid tree *)

Lemma valid_tree_table orig nTips :
  valid_tree orig nTips →
  let m := maxNodeId orig in
  ∃ out : table,
    bipCPP nTips orig = Returned (std_sort <$> out, orig)
    ∧ length out = Z.to_nat m
    ∧ (∀ x, x ∉ orig.*1 → container out x = container (seeded m nTips) x)
    ∧ (∀ i, container out i
            = container (seeded m nTips) i
              ++ concat (container out <$> children_of i orig))
    ∧ shares_tips m nTips out (list_to_set orig.*2)
    ∧ (∀ i x, x ∈ container out i → 1 ≤ x ≤ nTips ∧ reaches orig i x).
Proof.
  intros Hv m. destruct (valid_tree_runs _ _ Hv) as (out & Hloop & Hlen & Hrun).
  fold m in Hloop, Hlen.
  pose proof (valid_tree_ntips _ _ Hv) as Hn. fold m in Hn.
  assert (Htips : Forall (λ e, e.2 ≤ nTips → container (seeded m nTips) e.2 = [e.2]) orig).
  { apply Forall_forall. intros e He Hle.
    pose proof (proj1 (Forall_forall _ _) (vt_children _ _ Hv) e He) as Hc. simpl in Hc.
    rewrite container_seeded by lia. rewrite decide_True by lia. done. }
  exists out. split; [done|]. split; [done|]. split; [|split; [|split]].
  - intros x Hx. by apply (edge_loop_frame _ _ _ _ _ Hloop).
  - apply (edge_loop_children _ _ _ _ Hloop); [apply Hv|apply Hv|done].
  - replace (list_to_set orig.*2) with (list_to_set orig.*2 ∪ ∅ : gset Z) by set_solver.
    apply (edge_loop_shares _ _ _ _ _ _ (shares_tips_seeded m nTips ltac:(lia)) Hloop);
      try apply Hv; [done|set_solver].
  - refine (edge_loop_reach orig nTips orig (seeded m nTips) out (λ _ H, H) _ _ Hloop).
    + eapply Forall_impl; [apply (vt_children _ _ Hv)|]. simpl. intros; lia.
    + intros i x. rewrite container_seeded by lia.
      case_decide; [|by intros ?%elem_of_nil].
      intros ->%list_elem_of_singleton. split; [done|apply rtc_refl].
Qed.

(** ** Valid trees *)

(** C1. For a valid tree and an internal node [i], the container returned
    for [i] is the sorted union of the containers returned for the children
    of [i]: it is their concatenation sorted, it is strictly ascending (so
    without duplicates), its elements are exactly the elements of the
    children's containers, and they are exactly the tips that [i] reaches
    through the edges, the leaf set of the subtree rooted at [i]. *)
Theorem C1_internal_node_is_union_of_children orig nTips i :
  valid_tree orig nTips →
  nTips < i ≤ maxNodeId orig →
  ∃ result : table,
    bipCPP nTips orig = Returned (result, orig)
    ∧ result !! Z.to_nat (i - 1) = Some (container result i)
    ∧ container result i = std_sort (concat (container result <$> children_of i orig))
    ∧ StronglySorted Z.lt (container result i)
    ∧ (∀ x, x ∈ container result i ↔ ∃ c, (i, c) ∈ orig ∧ x ∈ container result c)
    ∧ (∀ x, x ∈ container result i ↔ 1 ≤ x ≤ nTips ∧ reaches orig i x).
Proof.
  intros Hv Hi.
  destruct (valid_tree_table _ _ Hv) as (out & Hrun & Hlen & Hframe & Hch & Hshare & Hreach).
  pose proof (valid_tree_ntips _ _ Hv) as Hn.
  assert (Hunion : container out i = concat (container out <$> children_of i orig)).
  { rewrite (Hch i) at 1. rewrite container_seeded by lia. by rewrite decide_False by lia. }
  assert (Htip : ∀ x, 1 ≤ x ≤ nTips → container out x = [x]).
  { intros x Hx. rewrite Hframe.
    - rewrite container_seeded by lia. by rewrite decide_True.
    - intros (e & -> & He)%list_elem_of_fmap.
      pose proof (valid_tree_parent _ _ _ Hv He). lia. }
  exists (std_sort <$> out). split; [done|]. split; [|split; [|split; [|split]]].
  - apply lookup_container. rewrite length_fmap. lia.
  - rewrite container_sorted, Hunion. symmetry.
    apply std_sort_unique; [apply std_sort_sorted|].
    rewrite std_sort_perm. apply concat_fmap_perm.
    intros c. rewrite container_sorted. symmetry. apply std_sort_perm.
  - rewrite container_sorted. apply std_sort_strict. apply Hshare.
  - intros x. rewrite container_sorted, std_sort_elem, Hunion, elem_of_concat_fmap.
    split; intros (c & Hc & Hx); exists c.
    + by rewrite container_sorted, std_sort_elem, <- elem_of_children_of.
    + by rewrite container_sorted, std_sort_elem, <- elem_of_children_of in *.
  - intros x. rewrite container_sorted, std_sort_elem. split; [apply Hreach|].
    intros [Hx Hr]. apply (reaches_container orig (container out)); [|done|].
    + intros p c y Hpc Hy. rewrite (Hch p). apply elem_of_app. right.
      apply elem_of_concat_fmap. exists c. by rewrite elem_of_children_of.
    + rewrite Htip by done. left.
Qed.

Lemma C1_witness :
  ∃ result : table,
    bipCPP 3 [(4,1);(4,2);(5,3);(5,4)] = Returned (result, [(4,1);(4,2);(5,3);(5,4)])
    ∧ result !! Z.to_nat (5 - 1) = Some (container result 5)
    ∧ container result 5
      = std_sort (concat (container result <$> children_of 5 [(4,1);(4,2);(5,3);(5,4)]))
    ∧ StronglySorted Z.lt (container result 5)
    ∧ (∀ x, x ∈ container result 5
            ↔ ∃ c, (5, c) ∈ [(4,1);(4,2);(5,3);(5,4)] ∧ x ∈ container result c)
    ∧ (∀ x, x ∈ container result 5
            ↔ 1 ≤ x ≤ 3 ∧ reaches [(4,1);(4,2);(5,3);(5,4)] 5 x).
Proof.
  apply (C1_internal_node_is_union_of_children [(4,1);(4,2);(5,3);(5,4)] 3 5).
  - valid_tree_by_evaluation.
  - vm_compute. split; [reflexivity|discriminate].
Defined.

(** C4. For a valid tree and a tip id [i] in 1..nTips, the container
    returned for [i] is the one-element list [[i]]. *)
Theorem C4_tip_is_singleton orig nTips i :
  valid_tree orig nTips →
  1 ≤ i ≤ nTips →
  ∃ result : table,
    bipCPP nTips orig = Returned (result, orig)
    ∧ result !! Z.to_nat (i - 1) = Some [i].
Proof.
  intros Hv Hi.
  destruct (valid_tree_table _ _ Hv) as (out & Hrun & Hlen & Hframe & _).
  pose proof (valid_tree_ntips _ _ Hv) as Hn.
  exists (std_sort <$> out). split; [done|].
  rewrite list_lookup_fmap, lookup_container by lia. rewrite Hframe.
  - rewrite container_seeded by lia. by rewrite decide_True.
  - intros (e & -> & He)%list_elem_of_fmap.
    pose proof (valid_tree_parent _ _ _ Hv He). lia.
Qed.

Lemma C4_witness :
  ∃ result : table,
    bipCPP 3 [(4,1);(4,2);(5,3);(5,4)] = Returned (result, [(4,1);(4,2);(5,3);(5,4)])
    ∧ result !! Z.to_nat (2 - 1) = Some [2].
Proof.
  apply (C4_tip_is_singleton [(4,1);(4,2);(5,3);(5,4)] 3 2).
  - valid_tree_by_evaluation.
  - lia.
Defined.

(** C5. Scenario B: on the edges (4,1), (4,2), (5,3), (5,4) with three tips
    the function returns the containers [1], [2], [3], [1,2], [1,2,3] for
    the node ids 1 to 5. *)
Theorem C5_scenario_B :
  bipCPP 3 [(4,1);(4,2);(5,3);(5,4)]
  = Returned ([[1];[2];[3];[1;2];[1;2;3]], [(4,1);(4,2);(5,3);(5,4)]).
Proof. vm_compute. reflexivity. Qed.

(** C6, as the code has it. For a valid tree, the node id that never occurs
    as a child, the root, gets the full tip set 1..nTips.  That node need
    not be the largest node id. *)
Theorem C6_root_has_all_tips orig nTips r :
  valid_tree orig nTips →
  1 ≤ r ≤ maxNodeId orig →
  r ∉ orig.*2 →
  ∃ result : table,
    bipCPP nTips orig = Returned (result, orig)
    ∧ result !! Z.to_nat (r - 1) = Some (seqZ 1 nTips).
Proof.
  intros Hv Hr Hroot.
  destruct (valid_tree_table _ _ Hv) as (out & Hrun & Hlen & _ & _ & Hshare & _).
  destruct Hshare as (_ & Hlive & _).
  exists (std_sort <$> out). split; [done|].
  rewrite list_lookup_fmap, lookup_container by lia. simpl. f_equal.
  apply std_sort_unique; [apply sorted_seqZ|]. rewrite <- Hlive.
  unfold live.
  rewrite (list_filter_iff _ (λ x, x ∉ orig.*2))
    by (intros x; by rewrite elem_of_list_to_set).
  fold (roots orig).
  assert (Hin : r ∈ roots orig).
  { apply list_elem_of_filter. split; [done|]. apply elem_of_seqZ. lia. }
  pose proof (vt_root _ _ Hv) as Hone.
  destruct (roots orig) as [|r' [|? ?]]; try done.
  apply list_elem_of_singleton in Hin as ->. simpl. by rewrite app_nil_r.
Qed.

Lemma C6_witness :
  ∃ result : table,
    bipCPP 3 [(5,1);(5,2);(4,5);(4,3)] = Returned (result, [(5,1);(5,2);(4,5);(4,3)])
    ∧ result !! Z.to_nat (4 - 1) = Some (seqZ 1 3).
Proof.
  apply (C6_root_has_all_tips [(5,1);(5,2);(4,5);(4,3)] 3 4).
  - valid_tree_by_evaluation.
  - vm_compute. split; discriminate.
  - by_evaluation.
Defined.

(** C6 as stated fails: in this valid tree the largest node id is 5, the
    root is 4, and the container returned for 5 is [1,2], not 1..3. *)
Lemma C6_counterexample :
  valid_tree [(5,1);(5,2);(4,5);(4,3)] 3
  ∧ maxNodeId [(5,1);(5,2);(4,5);(4,3)] = 5
  ∧ bipCPP 3 [(5,1);(5,2);(4,5);(4,3)]
    = Returned ([[1];[2];[3];[1;2;3];[1;2]], [(5,1);(5,2);(4,5);(4,3)])
  ∧ [[1];[2];[3];[1;2;3];[1;2]] !! Z.to_nat (5 - 1) = Some [1;2]
  ∧ [1;2] ≠ seqZ 1 3.
Proof.
  split; [valid_tree_by_evaluation|].
  split; [reflexivity|]. split; [vm_compute; reflexivity|].
  split; [reflexivity|]. vm_compute. discriminate.
Qed.

(** ** Inputs outside the contract *)

Lemma seed_tips_any m nTips :
  0 ≤ m → nTips ≤ m →
  seed_tips (replicate (Z.to_nat m) []) nTips = Returned (seeded m (Z.max 0 nTips)).
Proof.
  intros Hm Hn. destruct (decide (0 ≤ nTips)).
  - replace (Z.max 0 nTips) with nTips by lia. apply seed_tips_in. lia.
  - replace (Z.max 0 nTips) with 0 by lia. unfold seed_tips, seeded.
    rewrite seqZ_nil by lia. rewrite (seqZ_nil 1 0) by lia. simpl. do 2 f_equal. lia.
Qed.

(** A returning run went through all three loops on a table of [m]
    containers. *)
Lemma bipCPP_Returned_loop nTips orig r :
  bipCPP nTips orig = Returned r →
  ∃ m (out : table),
    Rcpp_max orig.*1 = Returned m
    ∧ 0 ≤ m ∧ nTips ≤ m
    ∧ for_each (edge_step nTips) (seeded m (Z.max 0 nTips)) orig = Returned out
    ∧ length out = Z.to_nat m
    ∧ r = (std_sort <$> out, orig).
Proof.
  rewrite bipCPP_local. unfold local. intros H.
  apply bind_Returned in H as (t & H & [= <-]).
  apply bind_Returned in H as (m & Hmax & H).
  apply bind_Returned in H as (out0 & Halloc & H).
  apply bind_Returned in H as (out1 & Hseed & H).
  apply bind_Returned in H as (out2 & Hloop & Hsort).
  unfold allocate in Halloc. destruct (Z.ltb_spec m 0); [done|].
  injection Halloc as <-.
  destruct (decide (nTips ≤ m)) as [Hn|Hn];
    [|by rewrite seed_tips_out in Hseed by lia].
  rewrite seed_tips_any in Hseed by done. injection Hseed as <-.
  pose proof (edge_loop_inv _ _ _ _ Hloop) as [_ Hlen].
  rewrite length_seeded in Hlen by lia.
  exists m, out2. repeat (split; [done|]).
  replace m with (Z.of_nat (length out2)) in Hsort by lia.
  rewrite sort_loop in Hsort. by injection Hsort as <-.
Qed.

Lemma negative_maximum_throws nTips orig m :
  Rcpp_max orig.*1 = Returned m → m < 0 → bipCPP nTips orig = Thrown length_error.
Proof.
  intros Hmax Hm. rewrite bipCPP_local, Hmax. unfold local, allocate. simpl.
  by destruct (Z.ltb_spec m 0); [|lia].
Qed.


(** Containers only grow during the loop over the edges. *)
Lemma edge_loop_prefix nTips es (out out' : table) :
  for_each (edge_step nTips) out es = Returned out' →
  ∀ i, ∃ more, container out' i = container out i ++ more.
Proof.
  revert out. induction es as [|e es IH]; intros out; simpl.
  - intros [= <-] i. exists []. by rewrite app_nil_r.
  - intros H i. apply bind_Returned in H as (out1 & H1 & H).
    pose proof (edge_step_inv _ _ _ _ H1) as Hb.
    rewrite (edge_step_in _ _ _ Hb) in H1. injection H1 as <-.
    destruct (IH _ H i) as [more Hmore]. rewrite Hmore, container_insert by apply Hb.
    case_decide; [subst i|by eauto].
    eexists. by rewrite <- app_assoc.
Qed.









(** ** Ownership of the containers *)

(** C7. A row (p, c) with an internal child inside the table appends the
    contents that the child's container has at that moment to the parent's
    container.  The copy is by value: when parent and child are two nodes
    the step leaves the child's container as it was, and so do all later
    rows whose parent is not [c], while the parent's container goes on
    growing behind the copied labels. *)
Theorem C7_child_container_copied nTips (out : table) p c :
  1 ≤ p ≤ Z.of_nat (length out) →
  nTips < c →
  1 ≤ c ≤ Z.of_nat (length out) →
  ∃ out' : table,
    edge_step nTips out (p, c) = Returned out'
    ∧ container out' p = container out p ++ container out c
    ∧ (p ≠ c →
       container out' c = container out c
       ∧ ∀ later (out'' : table),
           Forall (λ e, e.1 ≠ c) later →
           for_each (edge_step nTips) out' later = Returned out'' →
           container out'' c = container out c
           ∧ ∃ more, container out'' p = container out p ++ container out c ++ more).
Proof.
  intros Hp Hn Hc.
  assert (Hb : row_in_bounds nTips (Z.of_nat (length out)) (p, c)) by (split; simpl; lia).
  rewrite (edge_step_in _ _ _ Hb). simpl.
  eexists. split; [done|].
  assert (Hcopy : contribution nTips out c = container out c).
  { unfold contribution. destruct (Z.ltb_spec nTips c); [done|lia]. }
  rewrite Hcopy. split.
  - rewrite container_insert by done. by rewrite decide_True.
  - intros Hne. split.
    + rewrite container_insert by done. by rewrite decide_False.
    + intros later out'' Hlater Hrun. split.
      * rewrite (edge_loop_frame _ _ _ _ _ Hrun).
        -- rewrite container_insert by done. by rewrite decide_False.
        -- intros (e & He & Hin)%list_elem_of_fmap.
           by apply (proj1 (Forall_forall _ _) Hlater e Hin).
      * destruct (edge_loop_prefix _ _ _ _ Hrun p) as [more ->].
        rewrite container_insert by done. rewrite decide_True by done.
        exists more. by rewrite <- app_assoc.
Qed.

Lemma C7_witness :
  ∃ out' : table,
    edge_step 3 [[1];[2];[3];[1;2];[3]] (5, 4) = Returned out'
    ∧ container out' 5
      = container [[1];[2];[3];[1;2];[3]] 5 ++ container [[1];[2];[3];[1;2];[3]] 4
    ∧ (5 ≠ 4 →
       container out' 4 = container [[1];[2];[3];[1;2];[3]] 4
       ∧ ∀ later (out'' : table),
           Forall (λ e, e.1 ≠ 4) later →
           for_each (edge_step 3) out' later = Returned out'' →
           container out'' 4 = container [[1];[2];[3];[1;2];[3]] 4
           ∧ ∃ more, container out'' 5
                     = container [[1];[2];[3];[1;2];[3]] 5
                       ++ container [[1];[2];[3];[1;2];[3]] 4 ++ more).
Proof.
  apply (C7_child_container_copied 3 [[1];[2];[3];[1;2];[3]] 5 4); simpl; lia.
Defined.

(** ** The caller's matrix *)

(** C10. Whenever the function returns, the caller's edge matrix holds what
    it held before the call: the columns are read into vectors of the
    function's own and nothing is written back. *)
Theorem C10_matrix_unchanged nTips orig (result : table) after :
  bipCPP nTips orig = Returned (result, after) → after = orig.
Proof.
  intros Hrun.
  apply bipCPP_Returned in Hrun as (m & out & _ & _ & _ & _ & Hpair).
  by injection Hpair as _ ->.
Qed.

Lemma C10_witness :
  bipCPP 3 [(4,1);(4,2);(5,3);(5,4)]
  = Returned ([[1];[2];[3];[1;2];[1;2;3]], [(4,1);(4,2);(5,3);(5,4)])
  ∧ [(4,1);(4,2);(5,3);(5,4)] = [(4,1);(4,2);(5,3);(5,4)].
Proof.
  split; [vm_compute; reflexivity|].
  apply (C10_matrix_unchanged 3 [(4,1);(4,2);(5,3);(5,4)] [[1];[2];[3];[1;2];[1;2;3]]).
  vm_compute. reflexivity.
Defined.

(** ** The seeding loop and the size of the table *)

(** C9. The table has exactly as many containers as the largest parent id
    [m] says.  The seeding loop, which writes at the indices 0..nTips-1,
    stays inside that table exactly when nTips <= m; when nTips exceeds [m]
    it uses index [m], one past the last container, and the run of the
    function ends there. *)
Theorem C9_seeding_needs_nTips_within_table orig nTips m :
  Rcpp_max orig.*1 = Returned m →
  0 ≤ m →
  allocate m = Returned (replicate (Z.to_nat m) [])
  ∧ ((∃ out, seed_tips (replicate (Z.to_nat m) []) nTips = Returned out) ↔ nTips ≤ m)
  ∧ (m < nTips →
     seed_tips (replicate (Z.to_nat m) []) nTips
     = Undefined (index_out_of_bounds m (Z.to_nat m))
     ∧ bipCPP nTips orig = Undefined (index_out_of_bounds m (Z.to_nat m))).
Proof.
  intros Hmax Hm.
  assert (Halloc : allocate m = Returned (replicate (Z.to_nat m) [])).
  { unfold allocate. destruct (Z.ltb_spec m 0); [lia|done]. }
  split; [done|]. split; [split|].
  - intros [out Hout]. destruct (decide (nTips ≤ m)); [done|].
    rewrite seed_tips_out in Hout by lia. done.
  - intros Hle. destruct (decide (0 ≤ nTips)).
    + rewrite seed_tips_in by lia. eauto.
    + unfold seed_tips. rewrite seqZ_nil by lia. simpl. eauto.
  - intros Hlt. split; [by apply seed_tips_out|].
    rewrite bipCPP_local, Hmax. unfold local. simpl. rewrite Halloc. simpl.
    rewrite seed_tips_out by lia. done.
Qed.

Lemma C9_witness :
  seed_tips (replicate (Z.to_nat 2) []) 3 = Undefined (index_out_of_bounds 2 (Z.to_nat 2))
  ∧ bipCPP 3 [(2,1)] = Undefined (index_out_of_bounds 2 (Z.to_nat 2)).
Proof.
  refine (proj2 (proj2 (C9_seeding_needs_nTips_within_table [(2,1)] 3 2 _ _)) _).
  - reflexivity.
  - lia.
  - lia.
Defined.

(** * The function on arbitrary inputs *)

(** ** When it returns, when it throws *)

Lemma max_loop_NA mx v : NA_INTEGER ∈ v → max_loop mx v = NA_INTEGER.
Proof.
  revert mx. induction v as [|x v IH]; intros mx Hin; [by apply elem_of_nil in Hin|].
  simpl. destruct (Z.eqb_spec x NA_INTEGER) as [->|Hne]; [done|].
  apply elem_of_cons in Hin as [Heq|Hin]; [by destruct Hne|]. by apply IH.
Qed.

Lemma Rcpp_max_NA v : NA_INTEGER ∈ v → Rcpp_max v = Returned NA_INTEGER.
Proof.
  destruct v as [|x v]; [by intros ?%elem_of_nil|]. simpl.
  destruct (Z.eqb_spec x NA_INTEGER) as [->|Hne]; [done|].
  intros [Heq|Hin]%elem_of_cons; [by destruct Hne|]. by rewrite max_loop_NA.
Qed.

Lemma bipCPP_rows_in_bounds nTips orig m :
  Rcpp_max orig.*1 = Returned m →
  nTips ≤ m →
  Forall (row_in_bounds nTips m) orig →
  ∃ out : table,
    for_each (edge_step nTips) (seeded m (Z.max 0 nTips)) orig = Returned out
    ∧ length out = Z.to_nat m
    ∧ bipCPP nTips orig = Returned (std_sort <$> out, orig).
Proof.
  intros Hmax Hn Hrows.
  assert (Hm : 1 ≤ m).
  { destruct orig as [|e rest]; [done|].
    apply Forall_cons in Hrows as [[Hp _] _]. lia. }
  assert (Hlen0 : length (seeded m (Z.max 0 nTips)) = Z.to_nat m)
    by (apply length_seeded; lia).
  destruct (edge_loop_in nTips orig (seeded m (Z.max 0 nTips))) as (out & Hout & Hlen).
  { rewrite Hlen0. by rewrite Z2Nat.id by lia. }
  rewrite Hlen0 in Hlen.
  exists out. split; [done|]. split; [done|].
  rewrite bipCPP_local, Hmax. unfold local, allocate. simpl.
  destruct (Z.ltb_spec m 0); [lia|]. simpl.
  rewrite seed_tips_any by lia. simpl. rewrite Hout. simpl.
  replace m with (Z.of_nat (length out)) at 1 by lia.
  by rewrite sort_loop.
Qed.

(** X1. The rows that keep the run inside the language.  When the parent
    column has a maximum [m], the tip count does not exceed [m], every
    parent id lies in 1..m and every child id above the tip count lies in
    1..m, the run has no undefined behaviour: the maximum is defined and
    no index outside the table is used. *)
Theorem X1_rows_in_bounds_run_is_defined nTips orig m :
  Rcpp_max orig.*1 = Returned m →
  nTips ≤ m →
  Forall (row_in_bounds nTips m) orig →
  ∀ u, bipCPP nTips orig ≠ Undefined u.
Proof.
  intros Hmax Hn Hrows u.
  destruct (bipCPP_rows_in_bounds _ _ _ Hmax Hn Hrows) as (out & _ & _ & Hrun).
  by rewrite Hrun.
Qed.

Lemma X1_witness :
  Rcpp_max [(3,1);(3,2)].*1 = Returned 3
  ∧ ∀ u, bipCPP 2 [(3,1);(3,2)] ≠ Undefined u.
Proof.
  split; [reflexivity|].
  apply (X1_rows_in_bounds_run_is_defined 2 [(3,1);(3,2)] 3).
  - reflexivity.
  - lia.
  - unfold row_in_bounds. repeat (constructor; [simpl; lia|]). constructor.
Defined.

Lemma max_loop_negative mx v :
  mx < 0 → Forall (λ x, x < 0) v → max_loop mx v < 0.
Proof.
  intros Hmx Hv. revert mx Hmx. induction Hv as [|y v Hy _ IH]; intros mx Hmx; simpl; [done|].
  destruct (y =? NA_INTEGER); [done|]. apply IH. destruct (mx <? y); lia.
Qed.

Lemma Rcpp_max_negative v :
  v ≠ [] → Forall (λ x, x < 0) v → ∃ m, Rcpp_max v = Returned m ∧ m < 0.
Proof.
  intros Hne Hneg. destruct v as [|x v]; [done|].
  apply Forall_cons in Hneg as [Hx Hneg]. simpl.
  destruct (x =? NA_INTEGER); [by exists x|].
  exists (max_loop x v). split; [done|]. by apply max_loop_negative.
Qed.

(** X2. When the edge matrix is not empty and every parent id is negative,
    the function throws: the maximum of the parent column is negative and
    the table cannot be allocated.  No container is touched. *)
Theorem X2_negative_parents_throw nTips orig :
  orig ≠ [] →
  Forall (λ e, e.1 < 0) orig →
  bipCPP nTips orig = Thrown length_error.
Proof.
  intros Hne Hneg.
  destruct (Rcpp_max_negative orig.*1) as (m & Hmax & Hm).
  - intros E. by apply fmap_nil_inv in E.
  - by apply Forall_fmap.
  - by apply (negative_maximum_throws _ _ m).
Qed.

Lemma X2_witness : bipCPP 1 [(-1,1);(-2,-1)] = Thrown length_error.
Proof.
  apply (X2_negative_parents_throw 1 [(-1,1);(-2,-1)]).
  - discriminate.
  - repeat (constructor; [simpl; lia|]). constructor.
Defined.

(** X3. A missing value in the parent column makes the function throw: the
    maximum is then the missing value, the smallest integer. *)
Theorem X3_missing_parent_throws nTips orig :
  NA_INTEGER ∈ orig.*1 → bipCPP nTips orig = Thrown length_error.
Proof.
  intros Hna. apply (negative_maximum_throws _ _ NA_INTEGER).
  - by apply Rcpp_max_NA.
  - unfold NA_INTEGER. lia.
Qed.

Lemma X3_witness : bipCPP 2 [(3,1);(NA_INTEGER,2)] = Thrown length_error.
Proof.
  apply (X3_missing_parent_throws 2 [(3,1);(NA_INTEGER,2)]).
  by_evaluation.
Defined.

(** ** What a returned table looks like *)

(** X4. Whenever the function returns, the table has exactly as many
    containers as the largest parent id says, and every container is in
    ascending order, whatever the rows were. *)
Theorem X4_result_shape nTips orig (result : table) after :
  bipCPP nTips orig = Returned (result, after) →
  ∃ m, Rcpp_max orig.*1 = Returned m
       ∧ Z.of_nat (length result) = m
       ∧ Forall (Sorted Z.le) result.
Proof.
  intros Hrun.
  apply bipCPP_Returned_loop in Hrun as (m & out & Hmax & Hm & _ & _ & Hlen & Hpair).
  injection Hpair as -> _. exists m. split; [done|]. split.
  - rewrite length_fmap. lia.
  - apply Forall_fmap, Forall_forall. intros l _. apply std_sort_sorted.
Qed.

Lemma X4_witness :
  ∃ m, Rcpp_max [(3,1);(3,2)].*1 = Returned m
       ∧ Z.of_nat (length [[1];[2];[1;2]]) = m
       ∧ Forall (Sorted Z.le) [[1];[2];[1;2]].
Proof.
  apply (X4_result_shape 2 [(3,1);(3,2)] [[1];[2];[1;2]] [(3,1);(3,2)]).
  vm_compute. reflexivity.
Defined.

(** A property of (node, label) pairs that the seeds have and that pushing
    a child id and copying a child's container keep holds of every label
    of the final table. *)
Lemma edge_loop_labelled nTips (P : Z → Z → Prop) es (out out' : table) :
  Forall (λ e, (e.2 ≤ nTips → P e.1 e.2)
               ∧ (nTips < e.2 → ∀ x, P e.2 x → P e.1 x)) es →
  (∀ i x, x ∈ container out i → P i x) →
  for_each (edge_step nTips) out es = Returned out' →
  ∀ i x, x ∈ container out' i → P i x.
Proof.
  revert out. induction es as [|e es IH]; intros out Hes Hinv; simpl.
  - by intros [= <-].
  - intros H. apply bind_Returned in H as (out1 & H1 & H).
    pose proof (edge_step_inv _ _ _ _ H1) as Hb.
    rewrite (edge_step_in _ _ _ Hb) in H1. injection H1 as <-.
    apply Forall_cons in Hes as [[Hpush Hcopy] Hes].
    refine (IH _ Hes _ H).
    intros i x. rewrite container_insert by apply Hb.
    case_decide as Hi; [subst i|by apply Hinv].
    intros [Hx|Hx]%elem_of_app; [by apply Hinv|].
    unfold contribution in Hx. destruct (Z.ltb_spec nTips e.2).
    + apply Hcopy; [done|]. by apply Hinv.
    + apply list_elem_of_singleton in Hx as ->. by apply Hpush.
Qed.

(** X5. The function never invents a label.  Whenever it returns, in any
    order of the rows, every label in the container of node [i] is at most
    the tip count, is reached from [i] through the edges, and is either the
    id of [i] itself (a seeded tip) or the child id of some row.  Rows out
    of bottom-up order can only lose labels. *)
Theorem X5_labels_are_reachable nTips orig (result : table) after :
  bipCPP nTips orig = Returned (result, after) →
  ∀ i x, x ∈ container result i →
         x ≤ nTips ∧ reaches orig i x ∧ ((1 ≤ x ∧ x = i) ∨ x ∈ orig.*2).
Proof.
  intros Hrun i x.
  apply bipCPP_Returned_loop in Hrun as (m & out & _ & Hm & Hn & Hloop & _ & Hpair).
  injection Hpair as -> _. rewrite container_sorted, std_sort_elem.
  revert i x.
  refine (edge_loop_labelled nTips
            (λ i x, x ≤ nTips ∧ reaches orig i x ∧ ((1 ≤ x ∧ x = i) ∨ x ∈ orig.*2))
            orig _ out _ _ Hloop).
  - apply Forall_forall. intros [p c] He. simpl. split.
    + intros Hle. split; [done|]. split; [by apply rtc_once|].
      right. apply list_elem_of_fmap. by exists (p, c).
    + intros _ x (Hx & Hr & Hsrc). split; [done|]. split; [by eapply rtc_l|].
      destruct Hsrc as [[H1 ->]|Hsrc]; [|by right].
      right. apply list_elem_of_fmap. by exists (p, c).
  - intros i x. rewrite container_seeded by lia.
    case_decide; [|by intros ?%elem_of_nil].
    intros ->%list_elem_of_singleton. split; [lia|]. split; [apply rtc_refl|].
    left. split; [lia|done].
Qed.

Lemma X5_witness :
  1 ≤ 2 ∧ reaches [(3,1);(3,2)] 3 1 ∧ ((1 ≤ 1 ∧ 1 = 3) ∨ 1 ∈ [(3,1);(3,2)].*2).
Proof.
  refine (X5_labels_are_reachable 2 [(3,1);(3,2)] [[1];[2];[1;2]] [(3,1);(3,2)] _ 3 1 _).
  - vm_compute. reflexivity.
  - by_evaluation.
Defined.

(** X6. A node id that is the parent of no row keeps what the seeding gave
    it: a tip id keeps the one-element list of itself, and any other id of
    the table, such as an internal id that the rows leave out, gets the
    empty list. *)
Theorem X6_non_parent_keeps_seed nTips orig (result : table) after x :
  bipCPP nTips orig = Returned (result, after) →
  x ∉ orig.*1 →
  container result x = if decide (1 ≤ x ≤ nTips) then [x] else [].
Proof.
  intros Hrun Hx.
  apply bipCPP_Returned_loop in Hrun as (m & out & _ & Hm & Hn & Hloop & _ & Hpair).
  injection Hpair as -> _.
  rewrite container_sorted, (edge_loop_frame _ _ _ _ _ Hloop Hx).
  rewrite container_seeded by lia.
  destruct (decide (1 ≤ x ≤ nTips)).
  - by rewrite decide_True by lia.
  - by rewrite decide_False by lia.
Qed.

Lemma X6_witness :
  container [[1];[2];[];[1;2]] 3 = if decide (1 ≤ 3 ≤ 2) then [3] else [].
Proof.
  apply (X6_non_parent_keeps_seed 2 [(4,1);(4,2)] [[1];[2];[];[1;2]] [(4,1);(4,2)] 3).
  - vm_compute. reflexivity.
  - by_evaluation.
Defined.

(** X7. Bottom-up order alone makes the containers complete.  When the
    function returns on rows in bottom-up order whose parent ids exceed the
    tip count and whose child ids are positive, the labels of node [i] are
    exactly the tips that [i] reaches, also when the rows are a forest or
    give a node two parents. *)
Theorem X7_bottom_up_is_complete nTips orig (result : table) after :
  bipCPP nTips orig = Returned (result, after) →
  bottom_up orig →
  Forall (λ e, nTips < e.1 ∧ 1 ≤ e.2) orig →
  ∀ i x, x ∈ container result i ↔ 1 ≤ x ≤ nTips ∧ reaches orig i x.
Proof.
  intros Hrun Hbu Hids i x.
  apply bipCPP_Returned_loop in Hrun as (m & out & _ & Hm & Hn & Hloop & _ & Hpair).
  injection Hpair as -> _. rewrite container_sorted, std_sort_elem.
  assert (Hpar : Forall (λ e, nTips < e.1) orig)
    by (eapply Forall_impl; [exact Hids|]; by intros ? [? ?]).
  assert (Hpos : Forall (λ e, 1 ≤ e.2) orig)
    by (eapply Forall_impl; [exact Hids|]; by intros ? [? ?]).
  assert (Hseed : ∀ y, 1 ≤ y ≤ nTips → container (seeded m (Z.max 0 nTips)) y = [y]).
  { intros y Hy. rewrite container_seeded by lia. by rewrite decide_True by lia. }
  split.
  - revert i x.
    refine (edge_loop_reach orig nTips orig _ out (λ _ H, H) Hpos _ Hloop).
    intros i x. rewrite container_seeded by lia.
    case_decide; [|by intros ?%elem_of_nil].
    intros ->%list_elem_of_singleton. split; [lia|apply rtc_refl].
  - intros [Hx Hr].
    assert (Hch := edge_loop_children _ _ _ _ Hloop Hbu Hpar).
    apply (reaches_container orig (container out)); [|done|].
    + intros p c y Hpc Hy. rewrite Hch.
      * apply elem_of_app. right.
        apply elem_of_concat_fmap. exists c. by rewrite elem_of_children_of.
      * apply Forall_forall. intros e He Hle. apply Hseed.
        pose proof (proj1 (Forall_forall _ _) Hpos e He). simpl in *. lia.
    + rewrite (edge_loop_frame _ _ _ _ _ Hloop).
      * rewrite Hseed by done. left.
      * intros (e & -> & He)%list_elem_of_fmap.
        pose proof (proj1 (Forall_forall _ _) Hpar e He). simpl in *. lia.
Qed.

Lemma X7_witness :
  1 ≤ 1 ≤ 2 ∧ reaches [(3,1);(4,1);(4,2);(5,3);(5,4)] 5 1.
Proof.
  apply (proj1 (X7_bottom_up_is_complete 2 [(3,1);(4,1);(4,2);(5,3);(5,4)]
                  [[1];[2];[1];[1;2];[1;1;2]] [(3,1);(4,1);(4,2);(5,3);(5,4)]
                  ltac:(vm_compute; reflexivity) ltac:(by_evaluation) ltac:(by_evaluation)
                  5 1)).
  by_evaluation.
Defined.

(** * More about valid trees *)

(** The returned table of a valid tree, for every node id at once. *)
Lemma valid_tree_result orig nTips :
  valid_tree orig nTips →
  ∃ result : table,
    bipCPP nTips orig = Returned (result, orig)
    ∧ length result = Z.to_nat (maxNodeId orig)
    ∧ (∀ i, StronglySorted Z.lt (container result i))
    ∧ (∀ i x, x ∈ container result i ↔ 1 ≤ x ≤ nTips ∧ reaches orig i x).
Proof.
  intros Hv.
  destruct (valid_tree_table _ _ Hv) as (out & Hrun & Hlen & Hframe & Hch & Hshare & Hreach).
  pose proof (valid_tree_ntips _ _ Hv) as Hn.
  exists (std_sort <$> out). split; [done|]. split; [by rewrite length_fmap|]. split.
  - intros i. rewrite container_sorted. apply std_sort_strict, Hshare.
  - intros i x. rewrite container_sorted, std_sort_elem. split; [apply Hreach|].
    intros [Hx Hr]. apply (reaches_container orig (container out)); [|done|].
    + intros p c y Hpc Hy. rewrite (Hch p). apply elem_of_app. right.
      apply elem_of_concat_fmap. exists c. by rewrite elem_of_children_of.
    + rewrite Hframe.
      * rewrite container_seeded by lia. rewrite decide_True by done. left.
      * intros (e & -> & He)%list_elem_of_fmap.
        pose proof (valid_tree_parent _ _ _ Hv He). lia.
Qed.

Lemma strictly_sorted_ext (l1 l2 : list Z) :
  StronglySorted Z.lt l1 → StronglySorted Z.lt l2 →
  (∀ x, x ∈ l1 ↔ x ∈ l2) → l1 = l2.
Proof.
  intros H1 H2 Hext.
  assert (Hnd : ∀ l, StronglySorted Z.lt l → NoDup l).
  { induction 1 as [|x l _ IH Hx]; constructor; [|done].
    intros Hin. pose proof (proj1 (Forall_forall _ _) Hx x Hin). lia. }
  apply (StronglySorted_unique_strong Z.lt); [|done|done|].
  - intros. lia.
  - apply NoDup_Permutation; auto.
Qed.

Lemma table_ext (t1 t2 : table) :
  length t1 = length t2 → (∀ i, container t1 i = container t2 i) → t1 = t2.
Proof.
  intros Hlen Hext.
  rewrite <- (containers_of_table t1), <- (containers_of_table t2), Hlen.
  apply list_fmap_ext. auto.
Qed.

Lemma maxNodeId_perm orig orig' : orig ≡ₚ orig' → maxNodeId orig = maxNodeId orig'.
Proof.
  intros Hperm. unfold maxNodeId.
  assert (Hmax : ∀ v v' : list Z, v ≡ₚ v' → foldr Z.max 0 v = foldr Z.max 0 v').
  { induction 1 as [|x l l' _ IH|x y l|l l' l'' _ IH1 _ IH2]; simpl; lia. }
  apply Hmax. by apply fmap_Permutation.
Qed.

Lemma reaches_ext orig orig' i x :
  (∀ e, e ∈ orig → e ∈ orig') → reaches orig i x → reaches orig' i x.
Proof.
  intros Hsub Hr. induction Hr as [|a b c Hab _ IH]; [apply rtc_refl|].
  eapply rtc_l; [|done]. by apply Hsub.
Qed.

(** X8. For a tree the order of the rows does not matter beyond being
    bottom-up: two valid edge matrices with the same rows in different
    orders give the same table. *)
Theorem X8_row_order_is_irrelevant orig orig' nTips :
  valid_tree orig nTips →
  valid_tree orig' nTips →
  orig ≡ₚ orig' →
  ∃ result : table,
    bipCPP nTips orig = Returned (result, orig)
    ∧ bipCPP nTips orig' = Returned (result, orig').
Proof.
  intros Hv Hv' Hperm.
  destruct (valid_tree_result _ _ Hv) as (result & Hrun & Hlen & Hsorted & Hmem).
  destruct (valid_tree_result _ _ Hv') as (result' & Hrun' & Hlen' & Hsorted' & Hmem').
  exists result. split; [done|]. rewrite Hrun'. do 2 f_equal.
  apply table_ext.
  - by rewrite Hlen, Hlen', (maxNodeId_perm _ _ Hperm).
  - intros i. apply strictly_sorted_ext; [done|done|].
    intros x. rewrite Hmem, Hmem'.
    split; intros [Hx Hr]; (split; [done|]); revert Hr; apply reaches_ext;
      intros e; by rewrite Hperm.
Qed.

Lemma X8_witness :
  ∃ result : table,
    bipCPP 3 [(4,1);(4,2);(5,3);(5,4)] = Returned (result, [(4,1);(4,2);(5,3);(5,4)])
    ∧ bipCPP 3 [(4,2);(4,1);(5,4);(5,3)] = Returned (result, [(4,2);(4,1);(5,4);(5,3)]).
Proof.
  apply (X8_row_order_is_irrelevant [(4,1);(4,2);(5,3);(5,4)] [(4,2);(4,1);(5,4);(5,3)] 3).
  - valid_tree_by_evaluation.
  - valid_tree_by_evaluation.
  - by_evaluation.
Defined.

Lemma reaches_subset orig nTips (result : table) a b :
  (∀ i x, x ∈ container result i ↔ 1 ≤ x ≤ nTips ∧ reaches orig i x) →
  reaches orig a b → container result b ⊆ container result a.
Proof.
  intros Hmem Hab x. rewrite !Hmem. intros [Hx Hbx]. split; [done|].
  by etrans.
Qed.

(** X9. In the table of a valid tree the set of a node contains the set of
    each of its descendants. *)
Theorem X9_descendant_sets_are_nested orig nTips a b :
  valid_tree orig nTips →
  reaches orig a b →
  ∃ result : table,
    bipCPP nTips orig = Returned (result, orig)
    ∧ container result b ⊆ container result a.
Proof.
  intros Hv Hab.
  destruct (valid_tree_result _ _ Hv) as (result & Hrun & _ & _ & Hmem).
  exists result. split; [done|]. by eapply reaches_subset.
Qed.

Lemma X9_witness :
  ∃ result : table,
    bipCPP 3 [(4,1);(4,2);(5,3);(5,4)] = Returned (result, [(4,1);(4,2);(5,3);(5,4)])
    ∧ container result 4 ⊆ container result 5.
Proof.
  apply (X9_descendant_sets_are_nested [(4,1);(4,2);(5,3);(5,4)] 3 5 4).
  - valid_tree_by_evaluation.
  - apply rtc_once. by_evaluation.
Defined.

Lemma unique_parent (orig : IntegerMatrix) p p' c :
  NoDup orig.*2 → (p, c) ∈ orig → (p', c) ∈ orig → p = p'.
Proof.
  induction orig as [|[q d] rest IH]; intros Hnd H1 H2; [by apply elem_of_nil in H1|].
  rewrite fmap_cons in Hnd. simpl in Hnd. apply NoDup_cons in Hnd as [Hfresh Hnd].
  assert (Hin : ∀ r, (r, d) ∈ rest → False).
  { intros r Hr. apply Hfresh, list_elem_of_fmap. by exists (r, d). }
  apply elem_of_cons in H1 as [E1|H1]; apply elem_of_cons in H2 as [E2|H2].
  - congruence.
  - injection E1 as -> ->. by destruct (Hin p').
  - injection E2 as -> ->. by destruct (Hin p).
  - by apply IH.
Qed.

(** Two nodes above the same node lie on one path, since a node has one
    parent. *)
Lemma reaches_comparable orig a b x :
  NoDup orig.*2 → reaches orig a x → reaches orig b x →
  reaches orig a b ∨ reaches orig b a.
Proof.
  intros Hnd Ha. revert b. pattern x. revert x Ha. apply rtc_ind_r.
  - intros b Hb. by right.
  - intros y x Hay Hyx IH b Hb.
    apply rtc_inv_r in Hb as [->|(y' & Hby' & Hy'x)].
    + left. by eapply rtc_r.
    + rewrite (unique_parent _ _ _ _ Hnd Hy'x Hyx) in Hby'. by apply IH.
Qed.

(** X10. The sets of a valid tree form a hierarchy: two nodes whose sets
    share a tip have nested sets, so any two sets are nested or disjoint. *)
Theorem X10_sets_are_nested_or_disjoint orig nTips :
  valid_tree orig nTips →
  ∃ result : table,
    bipCPP nTips orig = Returned (result, orig)
    ∧ ∀ a b x, x ∈ container result a → x ∈ container result b →
               container result a ⊆ container result b
               ∨ container result b ⊆ container result a.
Proof.
  intros Hv.
  destruct (valid_tree_result _ _ Hv) as (result & Hrun & _ & _ & Hmem).
  exists result. split; [done|]. intros a b x [_ Ha]%Hmem [_ Hb]%Hmem.
  destruct (reaches_comparable _ _ _ _ (vt_one_parent _ _ Hv) Ha Hb).
  - right. by eapply reaches_subset.
  - left. by eapply reaches_subset.
Qed.

Lemma X10_witness :
  ∃ result : table,
    bipCPP 3 [(4,1);(4,2);(5,3);(5,4)] = Returned (result, [(4,1);(4,2);(5,3);(5,4)])
    ∧ ∀ a b x, x ∈ container result a → x ∈ container result b →
               container result a ⊆ container result b
               ∨ container result b ⊆ container result a.
Proof.
  apply (X10_sets_are_nested_or_disjoint [(4,1);(4,2);(5,3);(5,4)] 3).
  valid_tree_by_evaluation.
Defined.

(** Once a node has been the parent of a row its container is not empty,
    provided every internal child has had its own rows before. *)
Lemma edge_loop_nonempty nTips es :
  ∀ pre (out out' : table),
    (∀ x, x ∈ pre.*1 → container out x ≠ []) →
    bottom_up es →
    Forall (λ e, nTips < e.2 → e.2 ∈ (pre ++ es).*1) es →
    for_each (edge_step nTips) out es = Returned out' →
    ∀ x, x ∈ (pre ++ es).*1 → container out' x ≠ [].
Proof.
  induction es as [|e es IH]; intros pre out out' Hinv Hbu Hint; simpl.
  - intros [= <-] x. rewrite app_nil_r. apply Hinv.
  - intros H. apply bind_Returned in H as (out1 & H1 & H).
    pose proof (edge_step_inv _ _ _ _ H1) as Hb.
    rewrite (edge_step_in _ _ _ Hb) in H1. injection H1 as <-.
    destruct Hbu as [Hhd Hbu]. apply Forall_cons in Hint as [Hc Hint].
    rewrite (cons_middle e pre es), app_assoc in Hint |- *.
    refine (IH (pre ++ [e]) _ _ _ Hbu Hint H).
    intros x Hx. rewrite container_insert by apply Hb.
    case_decide as Hxe.
    + intros [_ Hempty]%app_eq_nil. unfold contribution in Hempty.
      destruct (Z.ltb_spec nTips e.2) as [Hlt|Hge]; [|done].
      revert Hempty. apply Hinv.
      specialize (Hc Hlt). rewrite fmap_app in Hc.
      apply elem_of_app in Hc as [Hc|Hc]; [done|].
      apply list_elem_of_fmap in Hc as (e' & He' & Hin).
      by destruct (proj1 (Forall_forall _ _) Hhd e' Hin).
    + apply Hinv. rewrite fmap_app in Hx.
      apply elem_of_app in Hx as [Hx|Hx]; [done|].
      apply list_elem_of_singleton in Hx. done.
Qed.

(** X11. In the table of a valid tree no node has an empty set: every node
    id from 1 to the largest one has at least one tip below it. *)
Theorem X11_no_empty_set orig nTips :
  valid_tree orig nTips →
  ∃ result : table,
    bipCPP nTips orig = Returned (result, orig)
    ∧ ∀ i, 1 ≤ i ≤ maxNodeId orig → container result i ≠ [].
Proof.
  intros Hv. destruct (valid_tree_runs _ _ Hv) as (out & Hloop & Hlen & Hrun).
  pose proof (valid_tree_ntips _ _ Hv) as Hn.
  exists (std_sort <$> out). split; [done|]. intros i Hi.
  rewrite container_sorted. intros Hempty.
  assert (Hnil : container out i = []).
  { apply Permutation_nil_r. by rewrite <- std_sort_perm, Hempty. }
  clear Hempty. revert Hnil.
  destruct (decide (i ∈ orig.*1)) as [Hpar|Hpar].
  - assert (Hempty : ∀ x : Z, x ∈ ([] : IntegerMatrix).*1
                              → container (seeded (maxNodeId orig) nTips) x ≠ [])
      by (by intros ? ?%elem_of_nil).
    refine (edge_loop_nonempty nTips orig [] _ out Hempty (vt_bottom_up _ _ Hv) _ Hloop i Hpar).
    apply Forall_forall. intros e He Hlt. simpl.
    pose proof (proj1 (Forall_forall _ _) (vt_children _ _ Hv) e He) as Hc. simpl in Hc.
    apply (proj1 (Forall_seqZ _ _ _) (vt_internal _ _ Hv)). lia.
  - rewrite (edge_loop_frame _ _ _ _ _ Hloop Hpar), container_seeded by lia.
    destruct (decide (1 ≤ i ≤ nTips)); [done|].
    destruct Hpar. apply (proj1 (Forall_seqZ _ _ _) (vt_internal _ _ Hv)). lia.
Qed.

Lemma X11_witness :
  ∃ result : table,
    bipCPP 3 [(4,1);(4,2);(5,3);(5,4)] = Returned (result, [(4,1);(4,2);(5,3);(5,4)])
    ∧ ∀ i, 1 ≤ i ≤ maxNodeId [(4,1);(4,2);(5,3);(5,4)] → container result i ≠ [].
Proof.
  apply (X11_no_empty_set [(4,1);(4,2);(5,3);(5,4)] 3).
  valid_tree_by_evaluation.
Defined.

Lemma bottom_up_last es e : bottom_up (es ++ [e]) → e.1 ∉ (es ++ [e]).*2.
Proof.
  induction es as [|e0 es IH]; simpl.
  - intros [[Hne _]%Forall_cons _]. by intros Heq%list_elem_of_singleton.
  - intros [[_ Hlater]%Forall_cons Hbu].
    apply not_elem_of_cons. split; [|by apply IH].
    apply (proj1 (Forall_forall _ _) Hlater e).
    apply elem_of_app. right. left.
Qed.

(** The container of the node that is nobody's child. *)
Lemma root_container orig nTips r :
  valid_tree orig nTips →
  1 ≤ r ≤ maxNodeId orig →
  r ∉ orig.*2 →
  ∃ result : table,
    bipCPP nTips orig = Returned (result, orig)
    ∧ result !! Z.to_nat (r - 1) = Some (seqZ 1 nTips).
Proof.
  intros Hv Hr Hroot.
  destruct (valid_tree_table _ _ Hv) as (out & Hrun & Hlen & _ & _ & Hshare & _).
  destruct Hshare as (_ & Hlive & _).
  exists (std_sort <$> out). split; [done|].
  rewrite list_lookup_fmap, lookup_container by lia. simpl. f_equal.
  apply std_sort_unique; [apply sorted_seqZ|]. rewrite <- Hlive. unfold live.
  rewrite (list_filter_iff _ (λ x, x ∉ orig.*2))
    by (intros x; by rewrite elem_of_list_to_set).
  fold (roots orig).
  assert (Hin : r ∈ roots orig).
  { apply list_elem_of_filter. split; [done|]. apply elem_of_seqZ. lia. }
  pose proof (vt_root _ _ Hv) as Hone.
  destruct (roots orig) as [|r' [|? ?]]; try done.
  apply list_elem_of_singleton in Hin as ->. simpl. by rewrite app_nil_r.
Qed.

(** X12. In a valid edge matrix the root is the parent of the last row: the
    container returned for that parent is the full tip set 1..nTips. *)
Theorem X12_last_row_parent_is_root orig nTips e :
  valid_tree orig nTips →
  last orig = Some e →
  (e.1 ∉ orig.*2)
  ∧ ∃ result : table,
      bipCPP nTips orig = Returned (result, orig)
      ∧ result !! Z.to_nat (e.1 - 1) = Some (seqZ 1 nTips).
Proof.
  intros Hv Hlast.
  assert (Hroot : e.1 ∉ orig.*2).
  { pose proof (vt_bottom_up _ _ Hv) as Hbu.
    apply last_Some in Hlast as [es ->]. by apply bottom_up_last. }
  split; [done|]. apply root_container; [done| |done].
  pose proof (valid_tree_parent _ _ _ Hv (last_Some_elem_of _ _ Hlast)).
  pose proof (vt_tips _ _ Hv). lia.
Qed.

Lemma X12_witness :
  ((4, 3).1 ∉ [(5,1);(5,2);(4,5);(4,3)].*2)
  ∧ ∃ result : table,
      bipCPP 3 [(5,1);(5,2);(4,5);(4,3)] = Returned (result, [(5,1);(5,2);(4,5);(4,3)])
      ∧ result !! Z.to_nat ((4, 3).1 - 1) = Some (seqZ 1 3).
Proof.
  apply (X12_last_row_parent_is_root [(5,1);(5,2);(4,5);(4,3)] 3 (4, 3)).
  - valid_tree_by_evaluation.
  - reflexivity.
Defined.
